(** * Field collection of graphql/exec.go

    A shallow embedding of [CollectFields] and its helpers
    ([collectFields], [getOrCreateField], [instanceOf],
    [shouldIncludeNode], [resolveIfArgument]) together with the facts the
    specification states about them.

    Go panics are an explicit outcome; the [visited] map, which the Go code
    shares by reference between all recursive calls, is threaded through
    the walk as state. *)

From Stdlib Require Import ZArith Ascii String.
From stdpp Require Import gmap strings list fin_maps.

Open Scope string_scope.
Open Scope list_scope.
Set Warnings "-register-all,-clear-no-such-hyp".

(** ** Runtime values ([interface{}] as stored in the variable map) *)

Inductive GoValue : Type :=
| GoNil
| GoBool (b : bool)
| GoInt (z : Z)
| GoFloat (repr : string)
| GoString (s : string)
| GoList (elems : list GoValue)
| GoObject (fields : list (string * GoValue)).

(** ** The parts of gqlparser's [ast] package that exec.go reads *)

(** Modelled from the spec: the package [ast] is not under src/; §6 lists
    what a node carries.  The kinds of a value literal, of which exec.go
    names only [Variable] (here [VariableRef], as [Variable] is a keyword
    of Rocq). *)
Inductive ValueKind : Type :=
| VariableRef | IntValue | FloatValue | StringValue | BlockValue
| BooleanValue | NullValue | EnumValue | ListValue | ObjectValue.

Global Instance ValueKind_eq_dec : EqDecision ValueKind.
Proof. solve_decision. Defined.

(** Modelled from the spec: an argument value, with its raw text and kind. *)
Inductive Value : Type :=
| MkValue (raw : string) (kind : ValueKind) (children : list (string * Value)).

Definition Raw (v : Value) : string := let 'MkValue r _ _ := v in r.
Definition Kind (v : Value) : ValueKind := let 'MkValue _ k _ := v in k.
Definition Children (v : Value) : list (string * Value) :=
  let 'MkValue _ _ c := v in c.

(** Modelled from the spec: "argument list" entries, a name and a value. *)
Record Argument : Type := MkArgument {
  arg_Name : string;
  arg_Value : Value
}.

(** Modelled from the spec: a directive, a name and its arguments. *)
Record Directive : Type := MkDirective {
  dir_Name : string;
  dir_Arguments : list Argument
}.

(** Modelled from the spec: "nodes tagged Field/InlineFragment/
    FragmentSpread".  [ast.Selection] is a Go interface, so a value of
    another dynamic type (or nil) can sit in a selection set; [OtherNode]
    stands for it and reaches the [default] branch of the type switch.
    gqlparser stores the field name in [Alias] when the query gives no
    alias, so [Alias] is the response key. *)
Inductive Selection : Type :=
| Field (Alias Name : string) (Arguments : list Argument)
        (Directives : list Directive) (SelectionSet : list Selection)
| InlineFragment (TypeCondition : string) (Directives : list Directive)
                 (SelectionSet : list Selection)
| FragmentSpread (Name : string) (Directives : list Directive)
| OtherNode.

(** Modelled from the spec: "each fragment carrying a name, declared type
    condition, directive list, and selection set". *)
Record FragmentDefinition : Type := MkFragment {
  frag_Name : string;
  frag_TypeCondition : string;
  frag_Directives : list Directive;
  frag_SelectionSet : list Selection
}.

(** Modelled from the spec: the three [ForName] lookups of [ast] return the
    first entry of the list with the given name, or nil. *)
Fixpoint DirectiveList_ForName (l : list Directive) (name : string)
  : option Directive :=
  match l with
  | [] => None
  | d :: l' => if decide (dir_Name d = name) then Some d
               else DirectiveList_ForName l' name
  end.

Fixpoint ArgumentList_ForName (l : list Argument) (name : string)
  : option Argument :=
  match l with
  | [] => None
  | a :: l' => if decide (arg_Name a = name) then Some a
               else ArgumentList_ForName l' name
  end.

Fixpoint FragmentDefinitionList_ForName (l : list FragmentDefinition)
  (name : string) : option FragmentDefinition :=
  match l with
  | [] => None
  | f :: l' => if decide (frag_Name f = name) then Some f
               else FragmentDefinitionList_ForName l' name
  end.

(** A nested induction principle for selections: the hypothesis for a node
    with children covers every child. *)
Section SelectionInduction.
Variable P : Selection → Prop.
Hypothesis HField : ∀ a n args dirs ss,
  Forall P ss → P (Field a n args dirs ss).
Hypothesis HInline : ∀ tc dirs ss,
  Forall P ss → P (InlineFragment tc dirs ss).
Hypothesis HSpread : ∀ n dirs, P (FragmentSpread n dirs).
Hypothesis HOther : P OtherNode.

Fixpoint Selection_nested_ind (s : Selection) : P s :=
  let all := fix all (l : list Selection) : Forall P l :=
    match l with
    | [] => Forall_nil_2 P
    | x :: l' => Forall_cons_2 P x l' (Selection_nested_ind x) (all l')
    end in
  match s with
  | Field a n args dirs ss => HField a n args dirs ss (all ss)
  | InlineFragment tc dirs ss => HInline tc dirs ss (all ss)
  | FragmentSpread n dirs => HSpread n dirs
  | OtherNode => HOther
  end.
End SelectionInduction.

(** ** Outcomes *)

(** What the Go code panics with. *)
Inductive Panic : Type :=
| IfNotDefined (directive : string)      (* "%s: argument 'if' not defined" *)
| IfNotBoolean (directive : string)   (* "%s: argument 'if' is not a boolean" *)
| ValueError (err : string)              (* panic(err) after Value.Value *)
| MissingFragment (fragment : string)    (* "missing fragment %s" *)
| Unsupported.                           (* "unsupported %T" *)

(** A call returns, panics, or the model runs out of expansion budget
    ([OutOfFuel], shown below never to happen with the budget
    [CollectFields] uses). *)
Inductive Outcome (A : Type) : Type :=
| Returns (a : A)
| Panics (p : Panic)
| OutOfFuel.
Arguments Returns {A} a.
Arguments Panics {A} p.
Arguments OutOfFuel {A}.

Definition bind {A B} (o : Outcome A) (k : A → Outcome B) : Outcome B :=
  match o with
  | Returns a => k a
  | Panics p => Panics p
  | OutOfFuel => OutOfFuel
  end.

Notation "x ←! o ; k" := (bind o (λ x, k))
  (at level 20, o at level 100, k at level 200, right associativity,
   format "x  ←!  o ;  '/' k").
Notation "' p ←! o ; k" := (bind o (λ p, k))
  (at level 20, p pattern, o at level 100, k at level 200,
   right associativity, format "' p  ←!  o ;  '/' k").

(** The result pair of [Value.Value]: a value, or an error. *)
Inductive Evaluated : Type :=
| Value_ok (v : GoValue)
| Value_err (err : string).

(** ** The collected field *)

Record CollectedField : Type := MkCollectedField {
  Alias : string;
  Name : string;
  Args : option (gmap string GoValue);   (* None is the nil map *)
  Selections : list Selection
}.

(** Reading [f.Args[name]]; a nil map has no entries. *)
Definition argLookup (f : CollectedField) (name : string) : option GoValue :=
  args ← Args f; args !! name.

Definition appendSelections (sels : list Selection) (f : CollectedField)
  : CollectedField :=
  {| Alias := Alias f; Name := Name f; Args := Args f;
     Selections := Selections f ++ sels |}.

Record QueryDocument : Type := MkDoc {
  Fragments : list FragmentDefinition
}.

Record RequestContext : Type :=
  MkRequestContext { Doc : QueryDocument; Variables : gmap string GoValue }.

(** ** Helpers that do not evaluate anything *)

(** [instanceOf]: linear search of [val] in [satisfies]. *)
Fixpoint instanceOf (val : string) (satisfies : list string) : bool :=
  match satisfies with
  | [] => false
  | s :: rest => if decide (val = s) then true else instanceOf val rest
  end.

(** The search loop of [getOrCreateField]: index of the first entry whose
    [Alias] equals [name]. *)
Fixpoint findAlias (c : list CollectedField) (name : string) : option nat :=
  match c with
  | [] => None
  | cf :: c' => if decide (Alias cf = name) then Some 0
                else S <$> findAlias c' name
  end.

(** [getOrCreateField]: the Go function returns a pointer into the slice;
    here it returns the (possibly extended) slice and the index pointed
    at.  [creator] runs only when no entry matches, and may panic. *)
Definition getOrCreateField (c : list CollectedField) (name : string)
  (creator : unit → Outcome CollectedField)
  : Outcome (list CollectedField * nat) :=
  match findAlias c name with
  | Some i => Returns (c, i)
  | None => f ←! creator (); Returns (c ++ [f], length c)
  end.

(** The loop [for _, childField := range ... ] of the two fragment cases:
    every child is looked up under [childField.Name], created as a copy of
    itself when absent, and then has its own selections appended. *)
Definition mergeChild (groupedFields : list CollectedField)
  (childField : CollectedField) : Outcome (list CollectedField) :=
  '(c, i) ←! getOrCreateField groupedFields (Name childField)
               (λ _, Returns childField);
  Returns (alter (appendSelections (Selections childField)) i c).

Fixpoint mergeChildren (groupedFields : list CollectedField)
  (children : list CollectedField) : Outcome (list CollectedField) :=
  match children with
  | [] => Returns groupedFields
  | childField :: rest =>
      g ←! mergeChild groupedFields childField; mergeChildren g rest
  end.

(** A loop over a selection set threading a state, stopping at the first
    panic. *)
Definition foldSelections {S : Type} (step : Selection → S → Outcome S)
  : list Selection → S → Outcome S :=
  fix go (l : list Selection) (st : S) : Outcome S :=
    match l with
    | [] => Returns st
    | sel :: l' => st' ←! step sel st; go l' st'
    end.

(** The state of one call of [collectFields]: its local [groupedFields]
    and the shared [visited] map. *)
Abbreviation WalkState := (list CollectedField * gset string)%type.

Section Collector.

(** [ast.Value.Value] belongs to gqlparser; the collector is modelled for
    any such evaluator. *)
Variable valueOf : Value → gmap string GoValue → Evaluated.

(** [resolveIfArgument] *)
Definition resolveIfArgument (d : Directive)
  (variables : gmap string GoValue) : Outcome bool :=
  match ArgumentList_ForName (dir_Arguments d) "if" with
  | None => Panics (IfNotDefined (dir_Name d))
  | Some arg =>
      match valueOf (arg_Value arg) variables with
      | Value_err err => Panics (ValueError err)
      | Value_ok (GoBool ret) => Returns ret
      | Value_ok _ => Panics (IfNotBoolean (dir_Name d))
      end
  end.

(** [shouldIncludeNode] *)
Definition shouldIncludeNode (directives : list Directive)
  (variables : gmap string GoValue) : Outcome bool :=
  match DirectiveList_ForName directives "skip" with
  | Some d => b ←! resolveIfArgument d variables; Returns (negb b)
  | None =>
      match DirectiveList_ForName directives "include" with
      | Some d => resolveIfArgument d variables
      | None => Returns true
      end
  end.

(** One iteration of the argument loop inside the creator closure of the
    [*ast.Field] case. *)
Definition bindArgument (variables : gmap string GoValue) (arg : Argument)
  (args : gmap string GoValue) : Outcome (gmap string GoValue) :=
  if decide (Kind (arg_Value arg) = VariableRef) then
    match variables !! Raw (arg_Value arg) with
    | Some val => Returns (<[arg_Name arg := val]> args)
    | None => Returns args
    end
  else
    match valueOf (arg_Value arg) variables with
    | Value_ok v => Returns (<[arg_Name arg := v]> args)
    | Value_err err => Panics (ValueError err)
    end.

Fixpoint bindArguments (variables : gmap string GoValue)
  (arguments : list Argument) (args : gmap string GoValue)
  : Outcome (gmap string GoValue) :=
  match arguments with
  | [] => Returns args
  | arg :: rest =>
      args' ←! bindArgument variables arg args;
      bindArguments variables rest args'
  end.

(** The creator closure of the [*ast.Field] case. *)
Definition newField (variables : gmap string GoValue)
  (alias name : string) (arguments : list Argument)
  : Outcome CollectedField :=
  match arguments with
  | [] => Returns {| Alias := alias; Name := name; Args := None;
                     Selections := [] |}
  | _ :: _ =>
      args ←! bindArguments variables arguments ∅;
      Returns {| Alias := alias; Name := name; Args := Some args;
                 Selections := [] |}
  end.

Section Walk.
Variable reqCtx : RequestContext.
Variable satisfies : list string.

(** The recursive call [collectFields(reqCtx, fragment.SelectionSet,
    satisfies, visited)] made for a fragment spread. *)
Variable expand : list Selection → gset string → Outcome WalkState.

(** The body of the [for] loop of [collectFields]: the type switch on
    one selection.  The recursive call of the [*ast.InlineFragment]
    case starts from an empty [groupedFields] and the current
    [visited]. *)
Fixpoint collectSel (sel : Selection) (st : WalkState) {struct sel}
  : Outcome WalkState :=
  let '(groupedFields, visited) := st in
  match sel with
  | Field alias name arguments directives selectionSet =>
      inc ←! shouldIncludeNode directives (Variables reqCtx);
      if negb inc then Returns (groupedFields, visited)
      else
        '(c, i) ←! getOrCreateField groupedFields alias
                     (λ _, newField (Variables reqCtx) alias name
                             arguments);
        Returns (alter (appendSelections selectionSet) i c, visited)
  | InlineFragment typeCondition directives selectionSet =>
      inc ←! shouldIncludeNode directives (Variables reqCtx);
      if negb inc || negb (instanceOf typeCondition satisfies)
      then Returns (groupedFields, visited)
      else
        '(children, visited') ←!
           foldSelections collectSel selectionSet ([], visited);
        g ←! mergeChildren groupedFields children;
        Returns (g, visited')
  | FragmentSpread fragmentName directives =>
      inc ←! shouldIncludeNode directives (Variables reqCtx);
      if negb inc then Returns (groupedFields, visited)
      else if decide (fragmentName ∈ visited)
      then Returns (groupedFields, visited)
      else
        let visited := {[fragmentName]} ∪ visited in
        match FragmentDefinitionList_ForName
                (Fragments (Doc reqCtx)) fragmentName with
        | None => Panics (MissingFragment fragmentName)
        | Some fragment =>
            if negb (instanceOf (frag_TypeCondition fragment) satisfies)
            then Returns (groupedFields, visited)
            else
              '(children, visited') ←!
                 expand (frag_SelectionSet fragment) visited;
              g ←! mergeChildren groupedFields children;
              Returns (g, visited')
        end
  | OtherNode => Panics Unsupported
  end.

(** [collectFields] with its recursive call on fragments abstracted. *)
Definition collectWith (selSet : list Selection) (visited : gset string)
  : Outcome WalkState :=
  foldSelections collectSel selSet ([], visited).
End Walk.

(** [collectFields].  Besides the list it returns, the result carries the
    [visited] map as the call leaves it.  [fuel] bounds the nesting of
    fragment-spread expansions; inline fragments recurse on the syntax
    and need none. *)
Fixpoint collectFields (fuel : nat) (reqCtx : RequestContext)
  (selSet : list Selection) (satisfies : list string)
  (visited : gset string) {struct fuel} : Outcome WalkState :=
  collectWith reqCtx satisfies
    (match fuel with
     | 0 => λ _ _, OutOfFuel
     | S fuel' => λ ss v, collectFields fuel' reqCtx ss satisfies v
     end)
    selSet visited.

(** [CollectFields]: a fresh [visited] map per call.  One unit of budget
    per fragment definition of the document is enough for every
    expansion (see [collectFields_total]). *)
Definition CollectFields (reqCtx : RequestContext)
  (selSet : list Selection) (satisfies : list string)
  : Outcome (list CollectedField) :=
  '(groupedFields, _) ←!
     collectFields (length (Fragments (Doc reqCtx))) reqCtx selSet
       satisfies ∅;
  Returns groupedFields.

End Collector.

(** ** An evaluator for closed examples *)

(** Modelled from the spec: gqlparser's [Value.Value] is not under src/.
    "arguments given as literals are evaluated directly", variables
    "via variable lookup": a variable reads the variable map (nil when
    unbound, the model has no variable definitions and so no defaults),
    integers and booleans are parsed as [strconv] does, strings, block
    strings and enums are their raw text, a float keeps its raw text, and
    lists and objects evaluate their children in order. *)
Fixpoint digitsValue (s : string) (acc : Z) : option Z :=
  match s with
  | EmptyString => Some acc
  | String c s' =>
      let n := Z.of_nat (nat_of_ascii c) in
      if bool_decide (48 ≤ n ≤ 57)%Z
      then digitsValue s' (10 * acc + (n - 48))%Z
      else None
  end.

Definition parseInt (raw : string) : Evaluated :=
  let checked (neg : bool) (digits : string) :=
    match digits with
    | EmptyString => Value_err "invalid syntax"
    | _ =>
        match digitsValue digits 0 with
        | None => Value_err "invalid syntax"
        | Some z =>
            let z := if neg then (- z)%Z else z in
            if bool_decide (- 2 ^ 63 ≤ z < 2 ^ 63)%Z then Value_ok (GoInt z)
            else Value_err "value out of range"
        end
    end in
  match raw with
  | String "-" rest => checked true rest
  | String "+" rest => checked false rest
  | _ => checked false raw
  end.

Definition parseBool (raw : string) : Evaluated :=
  if bool_decide (raw ∈ ["1"; "t"; "T"; "TRUE"; "true"; "True"])
  then Value_ok (GoBool true)
  else if bool_decide (raw ∈ ["0"; "f"; "F"; "FALSE"; "false"; "False"])
  then Value_ok (GoBool false)
  else Value_err "invalid syntax".

Fixpoint literalValue (v : Value) (vars : gmap string GoValue) : Evaluated :=
  let 'MkValue raw kind children := v in
  match kind with
  | VariableRef =>
      match vars !! raw with
      | Some value => Value_ok value
      | None => Value_ok GoNil
      end
  | IntValue => parseInt raw
  | FloatValue => Value_ok (GoFloat raw)
  | StringValue | BlockValue | EnumValue => Value_ok (GoString raw)
  | BooleanValue => parseBool raw
  | NullValue => Value_ok GoNil
  | ListValue =>
      (fix elems (l : list (string * Value)) (val : list GoValue) :=
         match l with
         | [] => Value_ok (GoList val)
         | (_, elem) :: l' =>
             match literalValue elem vars with
             | Value_ok elemVal => elems l' (val ++ [elemVal])
             | Value_err err => Value_err err
             end
         end) children []
  | ObjectValue =>
      (fix elems (l : list (string * Value)) (val : list (string * GoValue)) :=
         match l with
         | [] => Value_ok (GoObject val)
         | (name, elem) :: l' =>
             match literalValue elem vars with
             | Value_ok elemVal => elems l' (val ++ [(name, elemVal)])
             | Value_err err => Value_err err
             end
         end) children []
  end.

(** * Notions used to state the facts *)

(** Names of the fragments the document defines, and how many of them a
    walk holding [visited] can still expand. *)
Definition fragmentNames (reqCtx : RequestContext) : gset string :=
  list_to_set (frag_Name <$> Fragments (Doc reqCtx)).

Definition pending (reqCtx : RequestContext) (visited : gset string) : nat :=
  size (fragmentNames reqCtx ∖ visited).

(** [visited] only grows. *)
Definition grows (expand : list Selection → gset string → Outcome WalkState)
  : Prop :=
  ∀ ss v g v', expand ss v = Returns (g, v') → v ⊆ v'.

(** With [n] names still to visit, a walk whose recursive calls are
    served whenever fewer than [n] names remain never exhausts the
    budget. *)
Definition serves (reqCtx : RequestContext) (n : nat)
  (expand : list Selection → gset string → Outcome WalkState) : Prop :=
  ∀ ss v, (pending reqCtx v < n)%nat → expand ss v ≠ OutOfFuel.

(** More budget does not change an outcome already reached. *)
Definition extends
  (e1 e2 : list Selection → gset string → Outcome WalkState) : Prop :=
  ∀ ss v, e1 ss v ≠ OutOfFuel → e2 ss v = e1 ss v.

(** The recursive call available to [collectFields] at a given budget. *)
Definition expansion (valueOf : Value → gmap string GoValue → Evaluated)
  (reqCtx : RequestContext) (satisfies : list string) (fuel : nat)
  : list Selection → gset string → Outcome WalkState :=
  match fuel with
  | 0 => λ _ _, OutOfFuel
  | S fuel' => λ ss v, collectFields valueOf fuel' reqCtx ss satisfies v
  end.

(** Everything of an entry but its child selections. *)
Definition header (f : CollectedField)
  : string * string * option (gmap string GoValue) :=
  (Alias f, Name f, Args f).

(** The entries of a result stored under a response key. *)
Definition entriesFor (key : string) (c : list CollectedField)
  : list CollectedField :=
  filter (λ f, Alias f = key) c.

(** A field node stored under a response key other than [key]. *)
Definition otherField (key : string) (sel : Selection) : Prop :=
  match sel with
  | Field alias _ _ _ _ => alias ≠ key
  | _ => False
  end.

(** The directive list of a node. *)
Definition directivesOf (sel : Selection) : list Directive :=
  match sel with
  | Field _ _ _ directives _ => directives
  | InlineFragment _ directives _ => directives
  | FragmentSpread _ directives => directives
  | OtherNode => []
  end.





(** ** Sample documents *)

Definition leaf (name : string) : Selection := Field name name [] [] [].

Definition collected (name : string) (sels : list Selection)
  : CollectedField :=
  {| Alias := name; Name := name; Args := None; Selections := sels |}.

Definition emptyCtx : RequestContext := MkRequestContext (MkDoc []) ∅.

(** Fragment [A] spreads [B] and [B] spreads [A]. *)
Definition fragA : FragmentDefinition :=
  MkFragment "A" "T" [] [leaf "a"; FragmentSpread "B" []].
Definition fragB : FragmentDefinition :=
  MkFragment "B" "T" [] [leaf "b"; FragmentSpread "A" []].
Definition cycleCtx : RequestContext :=
  MkRequestContext (MkDoc [fragA; fragB]) ∅.

(** Fragment [Outer] spreads [Inner]; [Strange] is declared on a type the
    object does not satisfy. *)
Definition fragOuter : FragmentDefinition :=
  MkFragment "Outer" "T" [] [FragmentSpread "Inner" []].
Definition fragInner : FragmentDefinition :=
  MkFragment "Inner" "T" [] [leaf "b"].
Definition fragStrange : FragmentDefinition :=
  MkFragment "Strange" "U" [] [leaf "u"].
Definition spreadCtx : RequestContext :=
  MkRequestContext (MkDoc [fragOuter; fragInner; fragStrange]) ∅.

(** Nodes and entries of the closed examples. *)
Definition missingIdArg : Argument :=
  MkArgument "id" (MkValue "missing" VariableRef []).
Definition idOne : list Argument := [MkArgument "id" (MkValue "1" IntValue [])].
Definition petName : Selection := Field "pet" "pet" [] [] [leaf "name"].
Definition petAge : Selection := Field "pet" "pet" [] [] [leaf "age"].

(** Fragment [XY] contributes the fields [x] and [y]. *)
Definition fragXY : FragmentDefinition :=
  MkFragment "XY" "T" [] [leaf "x"; leaf "y"].
Definition orderCtx : RequestContext := MkRequestContext (MkDoc [fragXY]) ∅.

(** [@skip(if: true)], [@include(if: true)] and [@include(if: $showName)]. *)
Definition skipTrue : Directive :=
  MkDirective "skip" [MkArgument "if" (MkValue "true" BooleanValue [])].
Definition includeTrue : Directive :=
  MkDirective "include" [MkArgument "if" (MkValue "true" BooleanValue [])].
Definition includeShowName : Directive :=
  MkDirective "include" [MkArgument "if" (MkValue "showName" VariableRef [])].
Definition showNameCtx (b : bool) : RequestContext :=
  MkRequestContext (MkDoc []) {["showName" := GoBool b]}.

(** * Notions used by the further facts *)

(** A node whose fields, at the level being collected, have their name as
    alias (the query wrote no alias).  Child selections of a field belong
    to a deeper level and are not looked at. *)
Fixpoint plain (sel : Selection) : bool :=
  match sel with
  | Field alias name _ _ _ => bool_decide (alias = name)
  | InlineFragment _ _ selectionSet => forallb plain selectionSet
  | FragmentSpread _ _ => true
  | OtherNode => true
  end.

(** A node that brings in only such fields through inline fragments; a
    field written directly may have any alias. *)
Definition plainInside (sel : Selection) : bool :=
  match sel with
  | InlineFragment _ _ selectionSet => forallb plain selectionSet
  | _ => true
  end.

(** Every fragment of the document selects only such fields. *)
Definition plainFragments (reqCtx : RequestContext) : Prop :=
  ∀ fragment, fragment ∈ Fragments (Doc reqCtx) →
    forallb plain (frag_SelectionSet fragment) = true.

Definition unaliased (f : CollectedField) : Prop := Alias f = Name f.

Definition isField (sel : Selection) : Prop :=
  match sel with
  | Field _ _ _ _ _ => True
  | _ => False
  end.

(** Response keys in order of first appearance. *)
Definition addKey (keys : list string) (key : string) : list string :=
  if decide (key ∈ keys) then keys else keys ++ [key].

Definition firstKeys (keys : list string) : list string :=
  foldl addKey [] keys.

(** The aliases of the field nodes of a selection set that their
    directives include, in order. *)
Definition includedAliases
  (valueOf : Value → gmap string GoValue → Evaluated)
  (variables : gmap string GoValue) (selSet : list Selection) : list string :=
  flat_map
    (λ sel,
       match sel with
       | Field alias _ _ directives _ =>
           match shouldIncludeNode valueOf directives variables with
           | Returns true => [alias]
           | _ => []
           end
       | _ => []
       end) selSet.

(** The child selections written under the field nodes of alias [key]
    that their directives include, in order. *)
Definition includedSelections
  (valueOf : Value → gmap string GoValue → Evaluated)
  (variables : gmap string GoValue) (key : string)
  (selSet : list Selection) : list Selection :=
  flat_map
    (λ sel,
       match sel with
       | Field alias _ _ directives selectionSet =>
           if decide (alias = key)
           then match shouldIncludeNode valueOf directives variables with
                | Returns true => selectionSet
                | _ => []
                end
           else []
       | _ => []
       end) selSet.

(** The child selections a result holds under a response key. *)
Definition selectionsFor (key : string) (c : list CollectedField)
  : list Selection :=
  flat_map Selections (entriesFor key c).

(** [g2] holds the entries of [g1] at the same positions, with the same
    alias, name and arguments, and child selections only extended. *)
Definition grewFrom (g1 g2 : list CollectedField) : Prop :=
  ∀ i f1, g1 !! i = Some f1 →
    ∃ f2 more, g2 !! i = Some f2 ∧ header f2 = header f1
               ∧ Selections f2 = Selections f1 ++ more.

(** A recursive call that marks only names of fragments of the document. *)
Definition confined (reqCtx : RequestContext)
  (expand : list Selection → gset string → Outcome WalkState) : Prop :=
  ∀ ss v g v', expand ss v = Returns (g, v') → v' ⊆ v ∪ fragmentNames reqCtx.

(** A recursive call whose entries, for the selection set of a fragment of
    the document, are all [unaliased]. *)
Definition yieldsUnaliased (reqCtx : RequestContext)
  (expand : list Selection → gset string → Outcome WalkState) : Prop :=
  ∀ fragment v g v', fragment ∈ Fragments (Doc reqCtx) →
    expand (frag_SelectionSet fragment) v = Returns (g, v') →
    Forall unaliased g.

(** The directives [shouldIncludeNode] can look at. *)
Definition conditional (d : Directive) : Prop :=
  dir_Name d = "skip" ∨ dir_Name d = "include".

Global Instance conditional_dec d : Decision (conditional d).
Proof. unfold conditional. apply _. Defined.

(** Further nodes of the closed examples. *)
Definition skippedField : Selection := Field "a" "a" [] [skipTrue] [].
Definition badIntArg : Argument := MkArgument "n" (MkValue "x1" IntValue []).
Definition idOneArg : Argument := MkArgument "id" (MkValue "1" IntValue []).
Definition makeB : unit → Outcome CollectedField :=
  λ _, Returns (collected "b" []).
Definition aliasedThenSpread : list Selection :=
  [Field "k" "a" [] [] []; FragmentSpread "A" []].

(** The inputs at which the merge by name shows. *)
Definition mixedSiblings : list Selection :=
  [Field "a" "a" [] [] [leaf "p"];
   InlineFragment "T" [] [Field "z" "a" [] [] [leaf "r"]];
   Field "a" "a" [] [] [leaf "q"]].

Definition fragAk : FragmentDefinition :=
  MkFragment "A" "T" [] [Field "k" "a" [] [] []; FragmentSpread "B" []].
Definition aliasCycleCtx : RequestContext :=
  MkRequestContext (MkDoc [fragAk; fragB]) ∅.
Definition aliasedA : CollectedField :=
  {| Alias := "k"; Name := "a"; Args := None; Selections := [] |}.


(** * Facts *)

(** ** Outcomes and loops *)

Lemma bind_Returns {A B} (o : Outcome A) (k : A → Outcome B) b :
  bind o k = Returns b ↔ ∃ a, o = Returns a ∧ k a = Returns b.
Proof.
  split.
  - destruct o as [a| |]; simpl; intros H; try discriminate. eauto.
  - intros (a & -> & H). exact H.
Qed.

Lemma bind_not_OutOfFuel {A B} (o : Outcome A) (k : A → Outcome B) :
  bind o k ≠ OutOfFuel ↔
  o ≠ OutOfFuel ∧ ∀ a, o = Returns a → k a ≠ OutOfFuel.
Proof.
  destruct o as [a| |]; simpl; split.
  - intros H. split; [discriminate|]. intros a' [= <-]. exact H.
  - intros [_ H]. by apply H.
  - intros _. split; [discriminate|]. intros a [=].
  - discriminate.
  - intros H. by destruct H.
  - intros [H _]. by destruct H.
Qed.

Lemma foldSelections_cons {S} (step : Selection → S → Outcome S) sel l st :
  foldSelections step (sel :: l) st =
  (st' ←! step sel st; foldSelections step l st').
Proof. done. Qed.

Lemma foldSelections_app {S} (step : Selection → S → Outcome S) l1 l2 st :
  foldSelections step (l1 ++ l2) st =
  (st' ←! foldSelections step l1 st; foldSelections step l2 st').
Proof.
  revert st. induction l1 as [|sel l1 IH]; intros st; simpl; [done|].
  destruct (step sel st) as [st'| |]; simpl; [apply IH|done|done].
Qed.

(** A node that leaves the state it meets unchanged can be dropped from
    the selection set. *)
Lemma foldSelections_drop {S} (step : Selection → S → Outcome S)
  pre sel post st :
  (∀ st1, foldSelections step pre st = Returns st1 →
          step sel st1 = Returns st1) →
  foldSelections step (pre ++ sel :: post) st =
  foldSelections step (pre ++ post) st.
Proof.
  intros Hsel. rewrite !foldSelections_app.
  destruct (foldSelections step pre st) as [st1| |] eqn:Hpre; simpl;
    [|done|done].
  by rewrite (Hsel st1).
Qed.

(** ** [instanceOf] is list membership *)

Lemma instanceOf_spec val satisfies :
  instanceOf val satisfies = true ↔ val ∈ satisfies.
Proof.
  induction satisfies as [|s rest IH]; simpl.
  - split; [discriminate|]. by intros ?%elem_of_nil.
  - rewrite elem_of_cons. case_decide as Heq.
    + split; [by left|done].
    + rewrite IH. split; [by right|]. by intros [?|?].
Qed.

Lemma instanceOf_false val satisfies :
  instanceOf val satisfies = false ↔ val ∉ satisfies.
Proof.
  rewrite <- instanceOf_spec. by destruct (instanceOf val satisfies).
Qed.

(** ** [getOrCreateField]'s search *)

Lemma findAlias_Some c name i :
  findAlias c name = Some i →
  ∃ cf, c !! i = Some cf ∧ Alias cf = name.
Proof.
  revert i. induction c as [|cf c IH]; intros i; simpl; [done|].
  case_decide as Hcf.
  - intros [= <-]. eauto.
  - destruct (findAlias c name) as [j|] eqn:Hj; simpl; [|done].
    intros [= <-]. simpl. by apply IH.
Qed.

Lemma findAlias_None c name :
  findAlias c name = None ↔ ∀ cf, cf ∈ c → Alias cf ≠ name.
Proof.
  induction c as [|cf c IH]; simpl.
  - split; [|done]. by intros _ cf' ?%elem_of_nil.
  - case_decide as Hcf.
    + split; [done|]. intros H. destruct (H cf); [left|done].
    + destruct (findAlias c name) as [j|] eqn:Hj; simpl.
      * split; [done|]. intros H.
        assert (Some j = None) as [=].
        { apply IH. intros cf' Hin. apply H. by right. }
      * split; [|done]. intros _ cf' [->|Hin]%elem_of_cons; [done|].
        by apply IH.
Qed.

(** ** Termination: the expansion budget is never exhausted *)

Section Termination.
Variable valueOf : Value → gmap string GoValue → Evaluated.
Variable reqCtx : RequestContext.
Variable satisfies : list string.

Lemma ForName_fragmentNames name fragment :
  FragmentDefinitionList_ForName (Fragments (Doc reqCtx)) name
    = Some fragment →
  name ∈ fragmentNames reqCtx.
Proof.
  unfold fragmentNames. induction (Fragments (Doc reqCtx)) as [|f l IH];
    [done|].
  rewrite fmap_cons, list_to_set_cons. simpl.
  case_decide as Hf; [intros _; set_solver|].
  intros H. apply IH in H. set_solver.
Qed.

Lemma pending_initial :
  (pending reqCtx ∅ ≤ length (Fragments (Doc reqCtx)))%nat.
Proof.
  unfold pending, fragmentNames. rewrite difference_empty_L.
  induction (Fragments (Doc reqCtx)) as [|f l IH].
  - by rewrite fmap_nil, list_to_set_nil, size_empty.
  - rewrite fmap_cons, list_to_set_cons, size_union_alt, size_singleton.
    simpl. apply le_n_S. etrans; [apply subseteq_size|exact IH].
    set_solver.
Qed.

Lemma pending_mono v v' :
  v ⊆ v' → (pending reqCtx v' ≤ pending reqCtx v)%nat.
Proof. intros H. unfold pending. apply subseteq_size. set_solver. Qed.

Lemma pending_visit name v :
  name ∈ fragmentNames reqCtx → name ∉ v →
  (pending reqCtx ({[name]} ∪ v) < pending reqCtx v)%nat.
Proof.
  intros Hin Hv. unfold pending. apply subset_size.
  apply strict_spec_alt. split; [set_solver|].
  intros Heq. assert (name ∈ fragmentNames reqCtx ∖ v) as Hd by set_solver.
  rewrite <- Heq in Hd. set_solver.
Qed.

(** The helpers either return or panic. *)
Lemma resolveIfArgument_not_OutOfFuel d vars :
  resolveIfArgument valueOf d vars ≠ OutOfFuel.
Proof.
  unfold resolveIfArgument.
  destruct (ArgumentList_ForName _ _); [|done].
  destruct (valueOf _ _) as [[]|]; done.
Qed.

Lemma shouldIncludeNode_not_OutOfFuel dirs vars :
  shouldIncludeNode valueOf dirs vars ≠ OutOfFuel.
Proof.
  unfold shouldIncludeNode.
  destruct (DirectiveList_ForName dirs "skip") as [d|].
  - apply bind_not_OutOfFuel. split; [|done].
    apply resolveIfArgument_not_OutOfFuel.
  - destruct (DirectiveList_ForName dirs "include");
      [apply resolveIfArgument_not_OutOfFuel|done].
Qed.

Lemma bindArguments_not_OutOfFuel vars arguments args :
  bindArguments valueOf vars arguments args ≠ OutOfFuel.
Proof.
  revert args. induction arguments as [|arg rest IH]; intros args; simpl;
    [done|].
  apply bind_not_OutOfFuel. split; [|by intros].
  unfold bindArgument. case_decide.
  - by destruct (vars !! _).
  - by destruct (valueOf _ _).
Qed.

Lemma newField_not_OutOfFuel vars alias name arguments :
  newField valueOf vars alias name arguments ≠ OutOfFuel.
Proof.
  destruct arguments as [|arg rest]; [done|]. unfold newField.
  apply bind_not_OutOfFuel. split; [|done].
  apply bindArguments_not_OutOfFuel.
Qed.

Lemma getOrCreateField_not_OutOfFuel c name creator :
  creator () ≠ OutOfFuel → getOrCreateField c name creator ≠ OutOfFuel.
Proof.
  intros H. unfold getOrCreateField. destruct (findAlias c name); [done|].
  apply bind_not_OutOfFuel. by split.
Qed.

Lemma mergeChildren_not_OutOfFuel g children :
  mergeChildren g children ≠ OutOfFuel.
Proof.
  revert g. induction children as [|cf rest IH]; intros g; simpl; [done|].
  apply bind_not_OutOfFuel. split; [|by intros].
  unfold mergeChild. apply bind_not_OutOfFuel. split.
  - by apply getOrCreateField_not_OutOfFuel.
  - by intros [c i] _.
Qed.

Lemma foldSelections_grows (step : Selection → WalkState → Outcome WalkState)
  ss :
  Forall (λ sel, ∀ st st', step sel st = Returns st' → st.2 ⊆ st'.2) ss →
  ∀ st st', foldSelections step ss st = Returns st' → st.2 ⊆ st'.2.
Proof.
  induction 1 as [|sel ss Hsel _ IH]; intros st st'; simpl.
  - by intros [= ->].
  - intros (st1 & H1 & H2)%bind_Returns.
    etrans; [by eapply Hsel|by eapply IH].
Qed.

Lemma collectSel_grows expand sel :
  grows expand →
  ∀ st st', collectSel valueOf reqCtx satisfies expand sel st = Returns st' →
            st.2 ⊆ st'.2.
Proof.
  intros Hexp. induction sel as [a n args dirs ss _|tc dirs ss IH|n dirs|]
    using Selection_nested_ind; intros [g v] [g' v']; simpl.
  - intros (inc & _ & H)%bind_Returns. destruct inc; simpl in H.
    + apply bind_Returns in H as ([c i] & _ & [= _ <-]). done.
    + by injection H as _ <-.
  - intros (inc & _ & H)%bind_Returns.
    destruct (negb inc || negb (instanceOf tc satisfies)).
    + by injection H as _ <-.
    + apply bind_Returns in H as ([children v1] & Hfold & H).
      apply bind_Returns in H as (g1 & _ & [= _ <-]).
      by apply (foldSelections_grows _ _ IH) in Hfold.
  - intros (inc & _ & H)%bind_Returns. destruct inc; simpl in H.
    + case_decide; [by injection H as _ <-|].
      destruct (FragmentDefinitionList_ForName _ _) as [fragment|];
        [|done].
      destruct (negb (instanceOf _ satisfies)).
      * injection H as _ <-. set_solver.
      * apply bind_Returns in H as ([children v1] & Hrec & H).
        apply bind_Returns in H as (g1 & _ & [= _ <-]).
        apply Hexp in Hrec. set_solver.
    + by injection H as _ <-.
  - done.
Qed.

Lemma collectWith_grows expand :
  grows expand → grows (collectWith valueOf reqCtx satisfies expand).
Proof.
  intros Hexp ss v g v' H. unfold collectWith in H.
  apply (foldSelections_grows _ ss) in H; [done|].
  apply Forall_forall. intros sel _. by apply collectSel_grows.
Qed.

Lemma collectFields_grows fuel :
  grows (λ ss v, collectFields valueOf fuel reqCtx ss satisfies v).
Proof.
  induction fuel as [|fuel IH]; simpl; apply collectWith_grows;
    [by intros ???? [=]|done].
Qed.

Lemma foldSelections_total (step : Selection → WalkState → Outcome WalkState)
  n ss :
  Forall (λ sel, ∀ st st', step sel st = Returns st' → st.2 ⊆ st'.2) ss →
  Forall (λ sel, ∀ st, (pending reqCtx st.2 ≤ n)%nat → step sel st ≠ OutOfFuel) ss →
  ∀ st, (pending reqCtx st.2 ≤ n)%nat → foldSelections step ss st ≠ OutOfFuel.
Proof.
  induction ss as [|sel ss IH]; intros Hgrow Htot st Hst; simpl; [done|].
  apply Forall_cons in Hgrow as [Hg Hgrow].
  apply Forall_cons in Htot as [Ht Htot].
  apply bind_not_OutOfFuel. split; [by apply Ht|].
  intros st' Hstep. apply IH; [done..|].
  etrans; [apply pending_mono; by eapply Hg|done].
Qed.

Lemma collectSel_total n expand sel :
  grows expand → serves reqCtx n expand →
  ∀ st, (pending reqCtx st.2 ≤ n)%nat →
        collectSel valueOf reqCtx satisfies expand sel st ≠ OutOfFuel.
Proof.
  intros Hgrow Hserve.
  induction sel as [a nm args dirs ss _|tc dirs ss IH|nm dirs|]
    using Selection_nested_ind; intros [g v] Hv; simpl in *.
  - apply bind_not_OutOfFuel.
    split; [apply shouldIncludeNode_not_OutOfFuel|].
    intros [] _; simpl; [|done].
    apply bind_not_OutOfFuel. split; [|by intros [c i] _].
    apply getOrCreateField_not_OutOfFuel, newField_not_OutOfFuel.
  - apply bind_not_OutOfFuel.
    split; [apply shouldIncludeNode_not_OutOfFuel|].
    intros inc _. destruct (negb inc || _); [done|].
    apply bind_not_OutOfFuel. split.
    + apply (foldSelections_total _ n); [|done..].
      apply Forall_forall. intros sel _. by apply collectSel_grows.
    + intros [children v1] _. apply bind_not_OutOfFuel.
      split; [apply mergeChildren_not_OutOfFuel|done].
  - apply bind_not_OutOfFuel.
    split; [apply shouldIncludeNode_not_OutOfFuel|].
    intros [] _; simpl; [|done].
    case_decide as Hseen; [done|].
    destruct (FragmentDefinitionList_ForName _ _) as [fragment|] eqn:Hf;
      [|done].
    destruct (negb (instanceOf _ satisfies)); [done|].
    apply bind_not_OutOfFuel. split.
    + apply Hserve. eapply Nat.lt_le_trans; [|exact Hv].
      apply pending_visit; [by eapply ForName_fragmentNames|done].
    + intros [children v1] _. apply bind_not_OutOfFuel.
      split; [apply mergeChildren_not_OutOfFuel|done].
  - done.
Qed.

Lemma collectWith_total n expand :
  grows expand → serves reqCtx n expand →
  ∀ ss v, (pending reqCtx v ≤ n)%nat →
          collectWith valueOf reqCtx satisfies expand ss v ≠ OutOfFuel.
Proof.
  intros Hgrow Hserve ss v Hv. unfold collectWith.
  apply (foldSelections_total _ n); [| |done].
  - apply Forall_forall. intros sel _. by apply collectSel_grows.
  - apply Forall_forall. intros sel _. by apply collectSel_total.
Qed.

(** [collectFields] returns or panics as soon as the budget covers the
    fragment names not yet visited. *)
Lemma collectFields_total fuel ss v :
  (pending reqCtx v ≤ fuel)%nat →
  collectFields valueOf fuel reqCtx ss satisfies v ≠ OutOfFuel.
Proof.
  revert ss v. induction fuel as [|fuel IH]; intros ss v Hv; simpl.
  - apply (collectWith_total 0); [by intros ???? [=]| |done].
    intros ?? ?. lia.
  - apply (collectWith_total (S fuel)); [apply collectFields_grows| |done].
    intros ss' v' Hv'. apply IH. lia.
Qed.

Lemma foldSelections_extends
  (step1 step2 : Selection → WalkState → Outcome WalkState) ss :
  Forall (λ sel, ∀ st, step1 sel st ≠ OutOfFuel →
                       step2 sel st = step1 sel st) ss →
  ∀ st, foldSelections step1 ss st ≠ OutOfFuel →
        foldSelections step2 ss st = foldSelections step1 ss st.
Proof.
  induction 1 as [|sel ss Hsel _ IH]; intros st; simpl; [done|].
  intros [H1 H2]%bind_not_OutOfFuel. rewrite (Hsel _ H1).
  destruct (step1 sel st) as [st'| |]; simpl; [|done..].
  by apply IH, H2.
Qed.

Lemma collectSel_extends e1 e2 sel :
  extends e1 e2 →
  ∀ st, collectSel valueOf reqCtx satisfies e1 sel st ≠ OutOfFuel →
        collectSel valueOf reqCtx satisfies e2 sel st
        = collectSel valueOf reqCtx satisfies e1 sel st.
Proof.
  intros Hext.
  induction sel as [a nm args dirs ss _|tc dirs ss IH|nm dirs|]
    using Selection_nested_ind; intros [g v]; simpl; [done| | |done].
  - destruct (shouldIncludeNode _ _ _) as [inc| |]; simpl; [|done..].
    destruct (negb inc || _); [done|].
    intros [H1 _]%bind_not_OutOfFuel.
    by rewrite (foldSelections_extends _ _ _ IH _ H1).
  - destruct (shouldIncludeNode _ _ _) as [[]| |]; simpl; [|done..].
    case_decide; [done|].
    destruct (FragmentDefinitionList_ForName _ _) as [fragment|]; [|done].
    destruct (negb (instanceOf _ satisfies)); [done|].
    intros [H1 _]%bind_not_OutOfFuel. by rewrite (Hext _ _ H1).
Qed.

Lemma collectFields_more_fuel fuel fuel' ss v :
  (fuel ≤ fuel')%nat →
  collectFields valueOf fuel reqCtx ss satisfies v ≠ OutOfFuel →
  collectFields valueOf fuel' reqCtx ss satisfies v
  = collectFields valueOf fuel reqCtx ss satisfies v.
Proof.
  revert fuel' ss v. induction fuel as [|fuel IH]; intros fuel' ss v Hle;
    (destruct fuel' as [|fuel']; [try lia|]); simpl; unfold collectWith;
    try done; apply foldSelections_extends, Forall_forall;
    intros sel _; apply collectSel_extends.
  - by intros ?? [].
  - intros ss' v' H. apply IH; [lia|done].
Qed.
End Termination.

(** ** What merging leaves alone *)

Lemma header_appendSelections sels f :
  header (appendSelections sels f) = header f.
Proof. done. Qed.

Lemma headers_alter sels i (c : list CollectedField) :
  header <$> alter (appendSelections sels) i c = header <$> c.
Proof.
  revert i. induction c as [|f c IH]; intros [|i]; [done..|].
  simpl. f_equal. apply IH.
Qed.

Lemma alter_created (f : CollectedField → CollectedField) c x :
  alter f (length c) (c ++ [x]) = c ++ [f x].
Proof. induction c as [|y c IH]; simpl; [done|]. by f_equal. Qed.

Lemma entriesFor_findAlias_None key c :
  findAlias c key = None ↔ entriesFor key c = [].
Proof.
  rewrite findAlias_None. unfold entriesFor. split.
  - intros H. induction c as [|f c IH]; [done|].
    rewrite filter_cons_False; [|apply H; by left].
    apply IH. intros cf Hin. apply H. by right.
  - intros H cf Hin Hcf.
    assert (cf ∈ filter (λ f, Alias f = key) c) as Hf
      by by apply list_elem_of_filter.
    rewrite H in Hf. by apply elem_of_nil in Hf.
Qed.

(** Altering the entry [getOrCreateField] found, with a function that
    keeps the alias, changes the first entry stored under that key and no
    entry stored under another key. *)
Lemma entriesFor_alter key name (f : CollectedField → CollectedField) c i :
  (∀ x, Alias (f x) = Alias x) →
  findAlias c name = Some i →
  entriesFor key (alter f i c)
  = if decide (key = name)
    then match entriesFor key c with
         | x :: rest => f x :: rest
         | [] => []
         end
    else entriesFor key c.
Proof.
  intros Hf. unfold entriesFor. revert i.
  induction c as [|x c IH]; intros i; simpl; [done|].
  destruct (decide (Alias x = name)) as [Hx|Hx].
  - intros [= <-]. change (alter f 0 (x :: c)) with (f x :: c).
    destruct (decide (key = name)) as [Hkey|Hkey].
    + rewrite !filter_cons_True by (rewrite ?Hf; congruence). done.
    + rewrite !filter_cons_False by (rewrite ?Hf; congruence). done.
  - destruct (findAlias c name) as [j|] eqn:Hj; simpl; [|done].
    intros [= <-]. change (alter f (S j) (x :: c)) with (x :: alter f j c).
    specialize (IH j eq_refl).
    destruct (decide (Alias x = key)) as [Hk|Hk].
    + rewrite !filter_cons_True by done. rewrite IH.
      destruct (decide (key = name)); [congruence|done].
    + rewrite !filter_cons_False by done. exact IH.
Qed.

Lemma entriesFor_created key c x :
  entriesFor key (c ++ [x])
  = entriesFor key c ++ (if decide (Alias x = key) then [x] else []).
Proof.
  unfold entriesFor. rewrite filter_app. f_equal.
Qed.

Lemma mergeChild_headers g child g' :
  mergeChild g child = Returns g' →
  ∃ extra, header <$> g' = (header <$> g) ++ extra.
Proof.
  unfold mergeChild, getOrCreateField.
  destruct (findAlias g (Name child)) as [i|]; simpl; intros [= <-].
  - exists []. by rewrite headers_alter, app_nil_r.
  - exists [header child]. by rewrite headers_alter, fmap_app.
Qed.

Lemma mergeChildren_headers g children g' :
  mergeChildren g children = Returns g' →
  ∃ extra, header <$> g' = (header <$> g) ++ extra.
Proof.
  revert g. induction children as [|child rest IH]; intros g; simpl.
  - intros [= <-]. exists []. by rewrite app_nil_r.
  - intros (g1 & H1 & H2)%bind_Returns.
    apply mergeChild_headers in H1 as [e1 H1].
    apply IH in H2 as [e2 H2]. exists (e1 ++ e2).
    by rewrite H2, H1, <- app_assoc.
Qed.

(** ** The walk, node by node *)

Section Steps.
Variable valueOf : Value → gmap string GoValue → Evaluated.
Variable reqCtx : RequestContext.
Variable satisfies : list string.

Lemma collectFields_unfold fuel selSet visited :
  collectFields valueOf fuel reqCtx selSet satisfies visited =
  foldSelections
    (collectSel valueOf reqCtx satisfies
       (expansion valueOf reqCtx satisfies fuel))
    selSet ([], visited).
Proof. by destruct fuel. Qed.

Variable expand : list Selection → gset string → Outcome WalkState.

Lemma collectSel_inline_skipped tc dirs ss st b :
  tc ∉ satisfies →
  shouldIncludeNode valueOf dirs (Variables reqCtx) = Returns b →
  collectSel valueOf reqCtx satisfies expand (InlineFragment tc dirs ss) st
  = Returns st.
Proof.
  intros Htc%instanceOf_false Hinc. destruct st as [g v]. simpl.
  rewrite Hinc, Htc. simpl. by rewrite orb_true_r.
Qed.

Lemma collectSel_inline_included tc dirs ss g v :
  tc ∈ satisfies →
  shouldIncludeNode valueOf dirs (Variables reqCtx) = Returns true →
  collectSel valueOf reqCtx satisfies expand (InlineFragment tc dirs ss)
    (g, v)
  = ('(children, v') ←!
       collectWith valueOf reqCtx satisfies expand ss v;
     g' ←! mergeChildren g children;
     Returns (g', v')).
Proof.
  intros Htc%instanceOf_spec Hinc. simpl. by rewrite Hinc, Htc.
Qed.



Lemma collectSel_headers sel g v g' v' :
  collectSel valueOf reqCtx satisfies expand sel (g, v) = Returns (g', v') →
  ∃ extra, header <$> g' = (header <$> g) ++ extra.
Proof.
  assert (∃ extra, header <$> g = (header <$> g) ++ extra) as Hsame
    by (exists []; by rewrite app_nil_r).
  destruct sel as [a n args dirs ss|tc dirs ss|n dirs|]; simpl; [| | |done].
  - intros (inc & _ & H)%bind_Returns. destruct inc; simpl in H;
      [|by injection H as <- _].
    apply bind_Returns in H as ([c i] & Hget & [= <- _]).
    rewrite headers_alter. unfold getOrCreateField in Hget.
    destruct (findAlias g a); [by injection Hget as <- _|].
    apply bind_Returns in Hget as (f & _ & [= <- _]).
    exists [header f]. by rewrite fmap_app.
  - intros (inc & _ & H)%bind_Returns.
    destruct (negb inc || _); [by injection H as <- _|].
    apply bind_Returns in H as ([children v1] & _ & H).
    apply bind_Returns in H as (g1 & Hm & [= <- _]).
    by eapply mergeChildren_headers.
  - intros (inc & _ & H)%bind_Returns. destruct inc; simpl in H;
      [|by injection H as <- _].
    case_decide; [by injection H as <- _|].
    destruct (FragmentDefinitionList_ForName _ _) as [fragment|]; [|done].
    destruct (negb (instanceOf _ satisfies)); [by injection H as <- _|].
    apply bind_Returns in H as ([children v1] & _ & H).
    apply bind_Returns in H as (g1 & Hm & [= <- _]).
    by eapply mergeChildren_headers.
Qed.

Lemma foldSelections_headers ss g v g' v' :
  foldSelections (collectSel valueOf reqCtx satisfies expand) ss (g, v)
    = Returns (g', v') →
  ∃ extra, header <$> g' = (header <$> g) ++ extra.
Proof.
  revert g v. induction ss as [|sel ss IH]; intros g v; simpl.
  - intros [= <- _]. exists []. by rewrite app_nil_r.
  - intros ([g1 v1] & H1 & H2)%bind_Returns.
    apply collectSel_headers in H1 as [e1 H1].
    apply IH in H2 as [e2 H2]. exists (e1 ++ e2).
    by rewrite H2, H1, <- app_assoc.
Qed.

(** A field node, when included. *)
Lemma collectSel_field_again a n args dirs ss g v i :
  shouldIncludeNode valueOf dirs (Variables reqCtx) = Returns true →
  findAlias g a = Some i →
  collectSel valueOf reqCtx satisfies expand (Field a n args dirs ss) (g, v)
  = Returns (alter (appendSelections ss) i g, v).
Proof.
  intros Hinc Hi. simpl. rewrite Hinc. simpl.
  unfold getOrCreateField. by rewrite Hi.
Qed.

Lemma collectSel_field_first a n args dirs ss g v :
  shouldIncludeNode valueOf dirs (Variables reqCtx) = Returns true →
  findAlias g a = None →
  collectSel valueOf reqCtx satisfies expand (Field a n args dirs ss) (g, v)
  = (f ←! newField valueOf (Variables reqCtx) a n args;
     Returns (g ++ [appendSelections ss f], v)).
Proof.
  intros Hinc Hi. simpl. rewrite Hinc. simpl.
  unfold getOrCreateField. rewrite Hi.
  destruct (newField _ _ _ _ _) as [f| |]; simpl; [|done..].
  by rewrite alter_created.
Qed.
Lemma newField_Alias vars a n args f :
  newField valueOf vars a n args = Returns f →
  Alias f = a ∧ Name f = n ∧ Selections f = [].
Proof.
  destruct args as [|arg rest]; simpl; [by intros [= <-]|].
  by intros (m & _ & [= <-])%bind_Returns.
Qed.

Lemma collectSel_other key sel g v g' v' :
  otherField key sel →
  collectSel valueOf reqCtx satisfies expand sel (g, v) = Returns (g', v') →
  entriesFor key g' = entriesFor key g.
Proof.
  destruct sel as [a n args dirs ss| | |]; simpl; [|done..].
  intros Hne (inc & Hinc & H)%bind_Returns.
  destruct inc; simpl in H; [|by injection H as <- _].
  apply bind_Returns in H as ([c i] & Hget & [= <- _]).
  unfold getOrCreateField in Hget.
  destruct (findAlias g a) as [j|] eqn:Hj.
  - injection Hget as <- <-.
    rewrite (entriesFor_alter key a) by done.
    by rewrite decide_False.
  - apply bind_Returns in Hget as (f & Hf & [= <- <-]).
    apply newField_Alias in Hf as (Ha & _ & _).
    rewrite alter_created, entriesFor_created. simpl.
    rewrite decide_False by congruence. by rewrite app_nil_r.
Qed.

Lemma foldSelections_other key ss g v g' v' :
  Forall (otherField key) ss →
  foldSelections (collectSel valueOf reqCtx satisfies expand) ss (g, v)
    = Returns (g', v') →
  entriesFor key g' = entriesFor key g.
Proof.
  intros Hall. revert g v.
  induction Hall as [|sel ss Hsel _ IH]; intros g v; simpl.
  - by intros [= <- _].
  - intros ([g1 v1] & H1 & H2)%bind_Returns.
    rewrite (IH _ _ H2). by eapply collectSel_other.
Qed.

End Steps.

(** ** The names a walk marks *)

Section Marks.
Variable valueOf : Value → gmap string GoValue → Evaluated.
Variable reqCtx : RequestContext.
Variable satisfies : list string.




End Marks.

(** * The claims *)

Section Claims.
Variable valueOf : Value → gmap string GoValue → Evaluated.

(** C6. An inline fragment whose type condition is not a member of
    [satisfies] (and whose directives evaluate) leaves the walk as if it
    were not in the selection set: the subtree is not entered, no field
    of it reaches the result and [visited] is untouched.  This holds for
    every call of [collectFields] and so for [CollectFields]. *)
Theorem inline_fragment_type_condition
  fuel reqCtx satisfies pre tc dirs ss post visited b :
  tc ∉ satisfies →
  shouldIncludeNode valueOf dirs (Variables reqCtx) = Returns b →
  collectFields valueOf fuel reqCtx (pre ++ InlineFragment tc dirs ss :: post)
    satisfies visited
  = collectFields valueOf fuel reqCtx (pre ++ post) satisfies visited
  ∧ CollectFields valueOf reqCtx (pre ++ InlineFragment tc dirs ss :: post)
      satisfies
    = CollectFields valueOf reqCtx (pre ++ post) satisfies.
Proof.
  intros Htc Hinc.
  assert (∀ fuel' v,
    collectFields valueOf fuel' reqCtx
      (pre ++ InlineFragment tc dirs ss :: post) satisfies v
    = collectFields valueOf fuel' reqCtx (pre ++ post) satisfies v) as H.
  { intros fuel' v. rewrite !collectFields_unfold.
    apply foldSelections_drop. intros st1 _.
    by eapply collectSel_inline_skipped. }
  split; [apply H|]. unfold CollectFields. by rewrite H.
Qed.

(** C10. The empty type condition gets no special treatment: an inline
    fragment without a type condition is skipped whenever the empty
    string is not in [satisfies], and entered when it is. *)
Theorem inline_fragment_without_type_condition
  fuel reqCtx satisfies expand pre dirs ss post visited g :
  shouldIncludeNode valueOf dirs (Variables reqCtx) = Returns true →
  ("" ∉ satisfies →
     collectFields valueOf fuel reqCtx
       (pre ++ InlineFragment "" dirs ss :: post) satisfies visited
     = collectFields valueOf fuel reqCtx (pre ++ post) satisfies visited)
  ∧ ("" ∈ satisfies →
     collectSel valueOf reqCtx satisfies expand (InlineFragment "" dirs ss)
       (g, visited)
     = ('(children, visited') ←!
          collectWith valueOf reqCtx satisfies expand ss visited;
        g' ←! mergeChildren g children;
        Returns (g', visited'))).
Proof.
  intros Hinc. split; intros Hmem.
  - rewrite !collectFields_unfold. apply foldSelections_drop.
    intros st1 _. by eapply collectSel_inline_skipped.
  - by apply collectSel_inline_included.
Qed.


(** *** Arguments *)

Lemma bindArgument_unbound vars arg args :
  Kind (arg_Value arg) = VariableRef →
  vars !! Raw (arg_Value arg) = None →
  bindArgument valueOf vars arg args = Returns args.
Proof.
  intros Hk Hraw. unfold bindArgument. rewrite decide_True by done.
  by rewrite Hraw.
Qed.

Lemma bindArguments_unbound_name vars name arguments args args' :
  (∀ other, other ∈ arguments → arg_Name other = name →
     Kind (arg_Value other) = VariableRef
     ∧ vars !! Raw (arg_Value other) = None) →
  bindArguments valueOf vars arguments args = Returns args' →
  args' !! name = args !! name.
Proof.
  revert args. induction arguments as [|arg rest IH]; intros args Hall;
    simpl.
  - by intros [= ->].
  - intros (args1 & Harg & Hrest)%bind_Returns.
    rewrite (IH args1); [|intros other Hin; apply Hall; by right|done].
    destruct (decide (arg_Name arg = name)) as [Heq|Hne].
    + destruct (Hall arg) as [Hk Hraw]; [by left|done|].
      rewrite bindArgument_unbound in Harg by done. by injection Harg as <-.
    + unfold bindArgument in Harg. case_decide.
      * destruct (vars !! _); injection Harg as <-; [|done].
        by rewrite lookup_insert_ne.
      * destruct (valueOf _ _); [|done]. injection Harg as <-.
        by rewrite lookup_insert_ne.
  Qed.

(** C8. An argument that refers to a variable missing from the variable
    map adds nothing to the arguments map and raises nothing.  In the
    entry created for the field the argument name is absent (unless
    another argument of that name supplies a value), and a field all of
    whose arguments are such references is created with an empty map. *)
Theorem unbound_variable_argument_is_omitted
  vars alias name arguments arg :
  arg ∈ arguments →
  Kind (arg_Value arg) = VariableRef →
  vars !! Raw (arg_Value arg) = None →
  (∀ args, bindArgument valueOf vars arg args = Returns args)
  ∧ (∀ f,
       (∀ other, other ∈ arguments → arg_Name other = arg_Name arg →
          Kind (arg_Value other) = VariableRef
          ∧ vars !! Raw (arg_Value other) = None) →
       newField valueOf vars alias name arguments = Returns f →
       argLookup f (arg_Name arg) = None)
  ∧ ((∀ other, other ∈ arguments →
        Kind (arg_Value other) = VariableRef
        ∧ vars !! Raw (arg_Value other) = None) →
     newField valueOf vars alias name arguments
     = Returns {| Alias := alias; Name := name; Args := Some ∅;
                  Selections := [] |}).
Proof.
  intros Hin Hk Hraw. split; [|split].
  - intros args. by apply bindArgument_unbound.
  - intros f Hall. destruct arguments as [|a rest]; [by intros [= <-]|].
    unfold newField. intros (args & Hb & [= <-])%bind_Returns.
    unfold argLookup. simpl.
    by rewrite (bindArguments_unbound_name _ _ _ _ _ Hall Hb).
  - intros Hall. destruct arguments as [|a rest];
      [by apply elem_of_nil in Hin|].
    unfold newField.
    assert (∀ l args, (∀ other, other ∈ l →
               Kind (arg_Value other) = VariableRef
               ∧ vars !! Raw (arg_Value other) = None) →
             bindArguments valueOf vars l args = Returns args) as Hb.
    { clear. induction l as [|x l IH]; intros args Hl; simpl; [done|].
      destruct (Hl x) as [Hk Hraw]; [by left|].
      rewrite bindArgument_unbound by done. simpl.
      apply IH. intros other Ho. apply Hl. by right. }
    by rewrite Hb.
Qed.

(** X18. [CollectFields] terminates on every input: it returns or
    panics, the expansion budget it gives the model (one unit per fragment
    definition) is never exhausted, and any larger budget gives the same
    outcome of [collectFields]. *)
Theorem CollectFields_never_exhausts_budget reqCtx selSet satisfies :
  CollectFields valueOf reqCtx selSet satisfies ≠ OutOfFuel
  ∧ ∀ fuel, (length (Fragments (Doc reqCtx)) ≤ fuel)%nat →
      collectFields valueOf fuel reqCtx selSet satisfies ∅
      = collectFields valueOf (length (Fragments (Doc reqCtx))) reqCtx
          selSet satisfies ∅.
Proof.
  pose proof (collectFields_total valueOf reqCtx satisfies
                (length (Fragments (Doc reqCtx))) selSet ∅
                (pending_initial reqCtx)) as Htot.
  split.
  - unfold CollectFields. apply bind_not_OutOfFuel. split; [done|].
    by intros [g v] _.
  - intros fuel Hfuel. by apply collectFields_more_fuel.
Qed.

(** C5, at an input where the code breaks it.  Fragment [A] selects
    [k: a] and spreads [B]; [B] selects [b] and spreads [A].  Collecting
    the selection set of [A] terminates, but the field [k: a] comes out
    twice: the copy that comes back through [B] is looked up under its
    name [a], no entry has alias [a], and it is appended again. *)
Theorem cycle_returns_aliased_field_twice :
  CollectFields valueOf aliasCycleCtx (frag_SelectionSet fragAk) ["T"]
  = Returns [aliasedA; collected "b" []; aliasedA].
Proof. by vm_compute. Qed.

(** C3, at an input where the code breaks it.  Between the siblings
    [a { p }] and [a { q }] an inline fragment selects [z: a { r }].  The
    fragment's field is looked up under its name [a] and finds the entry
    of the siblings: their entry holds [p; r; q], not [p; q], and no
    entry has the response key [z]. *)
Theorem sibling_merge_takes_field_of_other_key :
  CollectFields valueOf emptyCtx mixedSiblings ["T"]
  = Returns [collected "a" [leaf "p"; leaf "r"; leaf "q"]].
Proof. by vm_compute. Qed.

(** X19. Two included sibling fields with the same alias, among sibling
    fields of other aliases, come out as exactly one entry under that
    alias.  Its child selections are the selection set of the first
    followed by the selection set of the second; its name and arguments
    are those of the first. *)
Theorem sibling_fields_merge
  reqCtx satisfies pre mid post a n1 args1 dirs1 ss1 n2 args2 dirs2 ss2 r :
  Forall (otherField a) pre →
  Forall (otherField a) mid →
  Forall (otherField a) post →
  shouldIncludeNode valueOf dirs1 (Variables reqCtx) = Returns true →
  shouldIncludeNode valueOf dirs2 (Variables reqCtx) = Returns true →
  CollectFields valueOf reqCtx
    (pre ++ Field a n1 args1 dirs1 ss1
         :: mid ++ Field a n2 args2 dirs2 ss2 :: post) satisfies
    = Returns r →
  ∃ f, entriesFor a r = [f]
       ∧ Selections f = ss1 ++ ss2
       ∧ Name f = n1
       ∧ newField valueOf (Variables reqCtx) a n1 args1
         = Returns {| Alias := a; Name := n1; Args := Args f;
                      Selections := [] |}.
Proof.
  intros Hpre Hmid Hpost Hinc1 Hinc2. unfold CollectFields.
  intros ([r' v'] & H & [= <-])%bind_Returns.
  rewrite collectFields_unfold in H.
  rewrite foldSelections_app in H.
  apply bind_Returns in H as ([g1 v1] & H1 & H).
  rewrite foldSelections_cons in H.
  apply bind_Returns in H as ([g2 v2] & H2 & H).
  rewrite foldSelections_app in H.
  apply bind_Returns in H as ([g3 v3] & H3 & H).
  rewrite foldSelections_cons in H.
  apply bind_Returns in H as ([g4 v4] & H4 & H5).
  apply foldSelections_other with (key := a) in H1; [|done].
  apply foldSelections_other with (key := a) in H3; [|done].
  apply foldSelections_other with (key := a) in H5; [|done].
  change (entriesFor a []) with (@nil CollectedField) in H1.
  rewrite collectSel_field_first in H2
    by (by rewrite ?entriesFor_findAlias_None).
  apply bind_Returns in H2 as (f & Hf & [= <- <-]).
  destruct (newField_Alias _ _ _ _ _ _ Hf) as (Ha & Hn & Hs).
  rewrite entriesFor_created, H1 in H3. simpl in H3.
  rewrite decide_True in H3 by done. simpl in H3.
  destruct (findAlias g3 a) as [i|] eqn:Hi;
    [|apply entriesFor_findAlias_None in Hi; congruence].
  rewrite (collectSel_field_again _ _ _ _ _ _ _ _ _ _ _ i) in H4 by done.
  injection H4 as <- <-.
  rewrite (entriesFor_alter a a) in H5 by done.
  rewrite decide_True, H3 in H5 by done.
  eexists. split; [exact H5|]. simpl. rewrite Hs. repeat split; [done|].
  rewrite Hf. destruct f; simpl in *. by subst.
Qed.


(** What a field node does to the arguments of the entries.  Take the walk
    up to an included field node.  If no entry
    has its response key, the node creates one, with arguments computed
    from this node.  If an entry has it, the arguments of the node are
    not evaluated and nothing but the child selections of that entry
    changes.  Whatever follows in the walk (fields, inline fragments,
    fragment spreads), alias, name and arguments of the entries present
    stay as they are, in place. *)
Lemma field_node_and_arguments
  fuel reqCtx satisfies pre a n args dirs ss post visited g1 v1 :
  collectFields valueOf fuel reqCtx pre satisfies visited
    = Returns (g1, v1) →
  shouldIncludeNode valueOf dirs (Variables reqCtx) = Returns true →
  let node := Field a n args dirs ss in
  let step :=
    collectSel valueOf reqCtx satisfies
      (expansion valueOf reqCtx satisfies fuel) node (g1, v1) in
  (findAlias g1 a = None →
     step = (f ←! newField valueOf (Variables reqCtx) a n args;
             Returns (g1 ++ [appendSelections ss f], v1)))
  ∧ (∀ i, findAlias g1 a = Some i →
       step = Returns (alter (appendSelections ss) i g1, v1)
       ∧ header <$> alter (appendSelections ss) i g1 = header <$> g1)
  ∧ (∀ g2 v2,
       collectFields valueOf fuel reqCtx (pre ++ node :: post) satisfies
         visited = Returns (g2, v2) →
       ∃ created, header <$> g2 = (header <$> g1) ++ created).
Proof.
  intros Hpre Hinc node step. split; [|split].
  - intros Hnone. by apply collectSel_field_first.
  - intros i Hi. split; [by apply collectSel_field_again|].
    apply headers_alter.
  - intros g2 v2. rewrite collectFields_unfold in *.
    rewrite foldSelections_app, Hpre. simpl.
    apply (foldSelections_headers _ _ _ _ (node :: post)).
Qed.

(** *** Directives *)




(** C1, at an input where the code breaks it.  A field [a: x] followed by
    an inline fragment that selects [a: x] again: the fragment's field is
    looked up under its name [x], no entry has alias [x], and a second
    entry with response key [a] is appended. *)
Theorem response_key_duplicated :
  CollectFields valueOf emptyCtx
    [Field "a" "x" [] [] []; InlineFragment "T" [] [Field "a" "x" [] [] []]]
    ["T"]
  = Returns [ {| Alias := "a"; Name := "x"; Args := None; Selections := [] |};
              {| Alias := "a"; Name := "x"; Args := None; Selections := [] |} ].
Proof. by vm_compute. Qed.

(** C2, at an input where the code breaks it.  The only field of an
    inline fragment, selecting [b] below it, is inserted as a new entry
    whose child selections hold [b] twice: the copy already carries its
    selections when they are appended to it. *)
Theorem fragment_field_selections_doubled :
  CollectFields valueOf emptyCtx
    [InlineFragment "T" [] [Field "a" "a" [] [] [leaf "b"]]] ["T"]
  = Returns [collected "a" [leaf "b"; leaf "b"]].
Proof. by vm_compute. Qed.
End Claims.

(** * The claims at concrete inputs *)

(** C6: an inline fragment on [Dog] while the object satisfies [Cat]. *)
Lemma inline_fragment_type_condition_witness :
  ("Dog" ∉ ["Cat"])
  ∧ shouldIncludeNode literalValue [] (Variables emptyCtx) = Returns true
  ∧ CollectFields literalValue emptyCtx
      ([leaf "name"] ++ InlineFragment "Dog" [] [leaf "bark"] :: [leaf "age"])
      ["Cat"]
    = CollectFields literalValue emptyCtx ([leaf "name"] ++ [leaf "age"])
        ["Cat"].
Proof.
  assert ("Dog" ∉ ["Cat"]) as Hno by (by apply instanceOf_false).
  split; [exact Hno|]. split; [reflexivity|].
  exact (proj2 (inline_fragment_type_condition literalValue 0 emptyCtx
                  ["Cat"] [leaf "name"] "Dog" [] [leaf "bark"] [leaf "age"]
                  ∅ true Hno eq_refl)).
Defined.

(** C10: an inline fragment without type condition while the object
    satisfies [Dog]. *)
Lemma inline_fragment_without_type_condition_witness :
  shouldIncludeNode literalValue [] (Variables emptyCtx) = Returns true
  ∧ ("" ∉ ["Dog"])
  ∧ collectFields literalValue 0 emptyCtx
      ([leaf "name"] ++ InlineFragment "" [] [leaf "bark"] :: []) ["Dog"] ∅
    = collectFields literalValue 0 emptyCtx ([leaf "name"] ++ []) ["Dog"] ∅.
Proof.
  assert ("" ∉ ["Dog"]) as Hno by (by apply instanceOf_false).
  split; [reflexivity|]. split; [exact Hno|].
  exact (proj1 (inline_fragment_without_type_condition literalValue 0
                  emptyCtx ["Dog"] (λ _ _, OutOfFuel) [leaf "name"] []
                  [leaf "bark"] [] ∅ [] eq_refl) Hno).
Defined.


(** X18: the budget of [cycleCtx] is two; seven gives the same outcome. *)
Lemma CollectFields_never_exhausts_budget_witness :
  (length (Fragments (Doc cycleCtx)) ≤ 7)%nat
  ∧ collectFields literalValue 7 cycleCtx (frag_SelectionSet fragA) ["T"] ∅
    = collectFields literalValue (length (Fragments (Doc cycleCtx))) cycleCtx
        (frag_SelectionSet fragA) ["T"] ∅.
Proof.
  assert (length (Fragments (Doc cycleCtx)) ≤ 7)%nat as Hle by (simpl; lia).
  split; [exact Hle|].
  exact (proj2 (CollectFields_never_exhausts_budget literalValue cycleCtx
                  (frag_SelectionSet fragA) ["T"]) 7%nat Hle).
Defined.

(** C8: [user(id: $missing)] with an empty variable map. *)
Lemma unbound_variable_argument_is_omitted_witness :
  missingIdArg ∈ [missingIdArg]
  ∧ Kind (arg_Value missingIdArg) = VariableRef
  ∧ (∅ : gmap string GoValue) !! Raw (arg_Value missingIdArg) = None
  ∧ newField literalValue ∅ "user" "user" [missingIdArg]
    = Returns {| Alias := "user"; Name := "user"; Args := Some ∅;
                 Selections := [] |}.
Proof.
  assert (missingIdArg ∈ [missingIdArg]) as Hin by apply list_elem_of_here.
  split; [exact Hin|]. split; [reflexivity|]. split; [reflexivity|].
  refine (proj2 (proj2 (unbound_variable_argument_is_omitted literalValue ∅
                  "user" "user" [missingIdArg] missingIdArg Hin eq_refl
                  eq_refl)) _).
  intros other ->%list_elem_of_singleton. split; reflexivity.
Defined.

(** X19: [pet { name }  other  pet { age }]. *)
Lemma sibling_fields_merge_witness :
  Forall (otherField "pet") []
  ∧ Forall (otherField "pet") [leaf "other"]
  ∧ shouldIncludeNode literalValue [] (Variables emptyCtx) = Returns true
  ∧ CollectFields literalValue emptyCtx
      ([] ++ petName :: [leaf "other"] ++ petAge :: []) []
    = Returns [collected "pet" [leaf "name"; leaf "age"];
               collected "other" []]
  ∧ ∃ f, entriesFor "pet" [collected "pet" [leaf "name"; leaf "age"];
                           collected "other" []] = [f]
         ∧ Selections f = [leaf "name"] ++ [leaf "age"]
         ∧ Name f = "pet"
         ∧ newField literalValue (Variables emptyCtx) "pet" "pet" []
           = Returns {| Alias := "pet"; Name := "pet"; Args := Args f;
                        Selections := [] |}.
Proof.
  assert (Forall (otherField "pet") []) as Hnil by constructor.
  assert (Forall (otherField "pet") [leaf "other"]) as Hmid
    by (repeat constructor; discriminate).
  assert (CollectFields literalValue emptyCtx
            ([] ++ petName :: [leaf "other"] ++ petAge :: []) []
          = Returns [collected "pet" [leaf "name"; leaf "age"];
                     collected "other" []]) as Hrun
    by (vm_compute; reflexivity).
  split; [exact Hnil|]. split; [exact Hmid|]. split; [reflexivity|].
  split; [exact Hrun|].
  exact (sibling_fields_merge literalValue emptyCtx [] [] [leaf "other"] []
           "pet" "pet" [] [] [leaf "name"] "pet" [] [] [leaf "age"] _
           Hnil Hmid Hnil eq_refl eq_refl Hrun).
Defined.



(** * The scenarios of the specification, run on the model *)

(** Ordering: [a, ...XY, c] comes out as [a, x, y, c]. *)
Example ordering_scenario :
  CollectFields literalValue orderCtx
    [leaf "a"; FragmentSpread "XY" []; leaf "c"] ["T"]
  = Returns [collected "a" []; collected "x" []; collected "y" [];
             collected "c" []].
Proof. vm_compute. reflexivity. Qed.

(** Directive precedence: with both directives true, [skip] wins. *)
Example skip_wins_scenario :
  CollectFields literalValue emptyCtx
    [Field "a" "a" [] [skipTrue; includeTrue] []; leaf "b"] []
  = Returns [collected "b" []].
Proof. vm_compute. reflexivity. Qed.

(** Variable-driven inclusion. *)
Example include_variable_scenario :
  CollectFields literalValue (showNameCtx false)
    [Field "name" "name" [] [includeShowName] []] [] = Returns []
  ∧ CollectFields literalValue (showNameCtx true)
      [Field "name" "name" [] [includeShowName] []] []
    = Returns [collected "name" []].
Proof. split; vm_compute; reflexivity. Qed.

(** An unbound variable in [@include(if: $showName)] is not a boolean. *)
Example include_unbound_variable_scenario :
  CollectFields literalValue emptyCtx
    [Field "name" "name" [] [includeShowName] []] []
  = Panics (IfNotBoolean "include").
Proof. vm_compute. reflexivity. Qed.

(** A spread of [Strange], declared on a type the object does not satisfy,
    contributes nothing and leaves the name visited. *)
Example incompatible_spread_scenario :
  collectFields literalValue 3 spreadCtx [FragmentSpread "Strange" []] ["T"] ∅
  = Returns ([], {["Strange"]} ∪ ∅).
Proof. vm_compute. reflexivity. Qed.

(** A missing fragment and a node of another kind abort the call. *)
Example missing_fragment_scenario :
  CollectFields literalValue emptyCtx [leaf "a"; FragmentSpread "Gone" []] []
  = Panics (MissingFragment "Gone")
  ∧ CollectFields literalValue emptyCtx [leaf "a"; OtherNode] []
    = Panics Unsupported.
Proof. split; vm_compute; reflexivity. Qed.

(** * Further facts about the collector *)

(** ** [instanceOf] and [getOrCreateField] *)

(** X1. [instanceOf] decides membership of the type condition in
    [satisfies]: order and repetitions in [satisfies] do not matter. *)
Theorem instanceOf_decides_membership val satisfies :
  instanceOf val satisfies = bool_decide (val ∈ satisfies).
Proof.
  destruct (instanceOf val satisfies) eqn:H; symmetry.
  - by apply bool_decide_eq_true, instanceOf_spec.
  - by apply bool_decide_eq_false, instanceOf_false.
Qed.

Lemma findAlias_first c name i :
  findAlias c name = Some i →
  ∀ j f, (j < i)%nat → c !! j = Some f → Alias f ≠ name.
Proof.
  revert i. induction c as [|cf c IH]; intros i; simpl; [done|].
  destruct (decide (Alias cf = name)) as [Hcf|Hcf].
  - intros [= <-] j f Hj. lia.
  - destruct (findAlias c name) as [k|] eqn:Hk; simpl; [|done].
    intros [= <-] [|j] f Hj; simpl.
    + by intros [= <-].
    + apply (IH k eq_refl). lia.
Qed.

(** X2. When [getOrCreateField] returns, the index it hands out is in
    bounds, the slice is the old one or the old one with that entry
    appended, and no entry before the index has the alias asked for.  An
    entry found has that alias, and then the creator did not run. *)
Theorem getOrCreateField_result c name creator c' i :
  getOrCreateField c name creator = Returns (c', i) →
  ∃ f, c' !! i = Some f
       ∧ (∀ j g, (j < i)%nat → c' !! j = Some g → Alias g ≠ name)
       ∧ ((c' = c ∧ Alias f = name ∧ findAlias c name = Some i)
          ∨ (c' = c ++ [f] ∧ i = length c ∧ creator () = Returns f
             ∧ findAlias c name = None)).
Proof.
  unfold getOrCreateField. destruct (findAlias c name) as [k|] eqn:Hk.
  - intros [= <- <-]. destruct (findAlias_Some _ _ _ Hk) as (f & Hf & Ha).
    exists f. split; [done|]. split; [by apply findAlias_first|]. by left.
  - intros (f & Hf & [= <- <-])%bind_Returns. exists f.
    split; [by rewrite lookup_app_r, Nat.sub_diag|]. split.
    + intros j g Hj Hg. rewrite lookup_app_l in Hg by done.
      eapply findAlias_None; [done|]. by eapply list_elem_of_lookup_2.
    + by right.
Qed.

(** X3. Asking again for a key under which an entry was found or created
    (the creator having given the entry that alias) finds the same entry:
    same slice, same index, whatever the second creator would do. *)
Theorem getOrCreateField_again c name creator creator' c' i f :
  getOrCreateField c name creator = Returns (c', i) →
  c' !! i = Some f →
  Alias f = name →
  getOrCreateField c' name creator' = Returns (c', i).
Proof.
  intros H Hi Ha. unfold getOrCreateField in *.
  destruct (findAlias c name) as [k|] eqn:Hk.
  - injection H as <- <-. by rewrite Hk.
  - apply bind_Returns in H as (f' & Hf & [= <- <-]).
    rewrite lookup_app_r, Nat.sub_diag in Hi by done. injection Hi as ->.
    assert (findAlias (c ++ [f]) name = Some (length c)) as ->; [|done].
    clear Hf. induction c as [|x c IH]; simpl.
    + by rewrite decide_True.
    + simpl in Hk. destruct (decide (Alias x = name)); [done|].
      destruct (findAlias c name); [done|]. by rewrite IH.
Qed.

(** ** Directives, excluded nodes and fatal nodes *)

Lemma DirectiveList_ForName_conditional dirs name :
  name = "skip" ∨ name = "include" →
  DirectiveList_ForName (filter conditional dirs) name
  = DirectiveList_ForName dirs name.
Proof.
  intros Hname. induction dirs as [|d dirs IH]; [done|].
  destruct (decide (conditional d)) as [Hd|Hd].
  - rewrite filter_cons_True by done. simpl. by rewrite IH.
  - rewrite filter_cons_False by done. simpl. rewrite IH.
    rewrite decide_False; [done|].
    intros Heq. apply Hd. unfold conditional. by rewrite Heq.
Qed.

Section FurtherFacts.
Variable valueOf : Value → gmap string GoValue → Evaluated.

(** X4. Only [skip] and [include] directives bear on inclusion: removing
    every other directive from a node changes neither the decision nor
    the panic of [shouldIncludeNode]. *)
Theorem shouldIncludeNode_ignores_other_directives dirs vars :
  shouldIncludeNode valueOf (filter conditional dirs) vars
  = shouldIncludeNode valueOf dirs vars.
Proof.
  unfold shouldIncludeNode.
  by rewrite !DirectiveList_ForName_conditional by auto.
Qed.

Lemma collectSel_excluded reqCtx satisfies expand sel st :
  shouldIncludeNode valueOf (directivesOf sel) (Variables reqCtx)
    = Returns false →
  collectSel valueOf reqCtx satisfies expand sel st = Returns st.
Proof.
  destruct st as [g v].
  destruct sel as [a n args dirs ss|tc dirs ss|n dirs|]; simpl;
    intros H; by rewrite ?H in *.
Qed.

(** X5. A node of any kind that its directives exclude leaves the walk as
    if it were not in the selection set: it adds no entry, no child
    selection, and (for a fragment spread) does not mark the fragment
    visited. *)
Theorem excluded_node_is_dropped
  fuel reqCtx satisfies pre sel post visited :
  shouldIncludeNode valueOf (directivesOf sel) (Variables reqCtx)
    = Returns false →
  collectFields valueOf fuel reqCtx (pre ++ sel :: post) satisfies visited
  = collectFields valueOf fuel reqCtx (pre ++ post) satisfies visited.
Proof.
  intros Hex. rewrite !collectFields_unfold. apply foldSelections_drop.
  intros st1 _. by apply collectSel_excluded.
Qed.

(** X6. A node that is neither a field, an inline fragment nor a fragment
    spread is fatal wherever it stands in the selection set being
    collected, whatever surrounds it: [CollectFields] panics. *)
Theorem unsupported_node_aborts reqCtx satisfies pre post :
  ∃ p, CollectFields valueOf reqCtx (pre ++ OtherNode :: post) satisfies
       = Panics p.
Proof.
  pose proof (collectFields_total valueOf reqCtx satisfies
                (length (Fragments (Doc reqCtx))) pre ∅
                (pending_initial reqCtx)) as Htot.
  unfold CollectFields. rewrite collectFields_unfold in *.
  rewrite foldSelections_app.
  destruct (foldSelections _ pre _) as [[g v]|p|]; simpl; by eauto.
Qed.

(** *** The names in [visited] *)

Lemma foldSelections_confined reqCtx
  (step : Selection → WalkState → Outcome WalkState) ss :
  Forall (λ sel, ∀ st st', step sel st = Returns st' →
                           st'.2 ⊆ st.2 ∪ fragmentNames reqCtx) ss →
  ∀ st st', foldSelections step ss st = Returns st' →
            st'.2 ⊆ st.2 ∪ fragmentNames reqCtx.
Proof.
  induction 1 as [|sel ss Hsel _ IH]; intros st st'; simpl.
  - intros [= ->]. set_solver.
  - intros (st1 & H1 & H2)%bind_Returns.
    apply Hsel in H1. apply IH in H2. set_solver.
Qed.

Lemma collectSel_confined reqCtx satisfies expand sel :
  confined reqCtx expand →
  ∀ st st', collectSel valueOf reqCtx satisfies expand sel st = Returns st' →
            st'.2 ⊆ st.2 ∪ fragmentNames reqCtx.
Proof.
  intros Hexp. induction sel as [a n args dirs ss _|tc dirs ss IH|n dirs|]
    using Selection_nested_ind; intros [g v] [g' v']; simpl.
  - intros (inc & _ & H)%bind_Returns. destruct inc; simpl in H.
    + apply bind_Returns in H as ([c i] & _ & [= _ <-]). set_solver.
    + injection H as _ <-. set_solver.
  - intros (inc & _ & H)%bind_Returns.
    destruct (negb inc || negb (instanceOf tc satisfies)).
    + injection H as _ <-. set_solver.
    + apply bind_Returns in H as ([children v1] & Hfold & H).
      apply bind_Returns in H as (g1 & _ & [= _ <-]).
      by apply (foldSelections_confined _ _ _ IH) in Hfold.
  - intros (inc & _ & H)%bind_Returns. destruct inc; simpl in H.
    + case_decide; [injection H as _ <-; set_solver|].
      destruct (FragmentDefinitionList_ForName _ _) as [fragment|] eqn:Hf;
        [|done].
      apply ForName_fragmentNames in Hf.
      destruct (negb (instanceOf _ satisfies)).
      * injection H as _ <-. set_solver.
      * apply bind_Returns in H as ([children v1] & Hrec & H).
        apply bind_Returns in H as (g1 & _ & [= _ <-]).
        apply Hexp in Hrec. set_solver.
    + injection H as _ <-. set_solver.
  - done.
Qed.

Lemma collectFields_confined reqCtx satisfies fuel :
  confined reqCtx (λ ss v, collectFields valueOf fuel reqCtx ss satisfies v).
Proof.
  induction fuel as [|fuel IH]; intros ss v g v' H; simpl in H;
    unfold collectWith in H;
    apply (foldSelections_confined reqCtx _ ss) in H; try done;
    apply Forall_forall; intros sel _; apply collectSel_confined.
  - by intros ???? [=].
  - exact IH.
Qed.

(** X7. When a call of [collectFields] returns, every name it added to
    [visited] is the name of a fragment the document defines, and no name
    was removed. *)
Theorem visited_names_are_fragments
  fuel reqCtx selSet satisfies visited g visited' :
  collectFields valueOf fuel reqCtx selSet satisfies visited
    = Returns (g, visited') →
  visited ⊆ visited' ∧ visited' ⊆ visited ∪ fragmentNames reqCtx.
Proof.
  intros H. split.
  - by eapply (collectFields_grows valueOf reqCtx satisfies fuel).
  - by eapply (collectFields_confined reqCtx satisfies fuel).
Qed.

(** X8. A fragment spread that its directives include and that names a
    fragment the document does not define is fatal.  If the nodes before
    it collect without panic, [CollectFields] panics with "missing
    fragment"; if they panic, [CollectFields] panics with that earlier
    panic.  No result is returned either way. *)
Theorem missing_fragment_aborts reqCtx satisfies pre name dirs post :
  FragmentDefinitionList_ForName (Fragments (Doc reqCtx)) name = None →
  shouldIncludeNode valueOf dirs (Variables reqCtx) = Returns true →
  (∀ r, CollectFields valueOf reqCtx pre satisfies = Returns r →
        CollectFields valueOf reqCtx (pre ++ FragmentSpread name dirs :: post)
          satisfies = Panics (MissingFragment name))
  ∧ (∀ p, CollectFields valueOf reqCtx pre satisfies = Panics p →
          CollectFields valueOf reqCtx
            (pre ++ FragmentSpread name dirs :: post) satisfies = Panics p)
  ∧ (∃ p, CollectFields valueOf reqCtx (pre ++ FragmentSpread name dirs :: post)
            satisfies = Panics p).
Proof.
  intros Hmiss Hinc.
  assert (name ∉ fragmentNames reqCtx) as Hname.
  { clear Hinc. unfold fragmentNames.
    induction (Fragments (Doc reqCtx)) as [|f l IH]; [set_solver|].
    rewrite fmap_cons, list_to_set_cons. simpl in Hmiss.
    destruct (decide (frag_Name f = name)); [done|].
    apply IH in Hmiss. set_solver. }
  pose proof (collectFields_total valueOf reqCtx satisfies
                (length (Fragments (Doc reqCtx))) pre ∅
                (pending_initial reqCtx)) as Htot.
  unfold CollectFields. rewrite !collectFields_unfold in *.
  rewrite foldSelections_app.
  destruct (foldSelections _ pre _) as [[g v]|p|] eqn:Hpre; simpl;
    [| |done].
  - assert (v ⊆ ∅ ∪ fragmentNames reqCtx) as Hv.
    { pose proof (collectFields_confined reqCtx satisfies
                    (length (Fragments (Doc reqCtx))) pre ∅ g v) as Hc.
      simpl in Hc. apply Hc. by rewrite collectFields_unfold. }
    rewrite Hinc. simpl. rewrite decide_False by set_solver.
    rewrite Hmiss. simpl. split; [done|]. split; [by intros p [=]|by eauto].
  - split; [by intros r [=]|]. split; [by intros p' [= ->]|by eauto].
Qed.
End FurtherFacts.

(** ** The arguments of a created entry *)

Section ArgumentFacts.
Variable valueOf : Value → gmap string GoValue → Evaluated.

Lemma bindArgument_Returns vars arg args args' :
  bindArgument valueOf vars arg args = Returns args' →
  (args' = args ∧ Kind (arg_Value arg) = VariableRef
   ∧ vars !! Raw (arg_Value arg) = None)
  ∨ (∃ v, args' = <[arg_Name arg := v]> args
          ∧ if decide (Kind (arg_Value arg) = VariableRef)
            then vars !! Raw (arg_Value arg) = Some v
            else valueOf (arg_Value arg) vars = Value_ok v).
Proof.
  unfold bindArgument. case_decide as Hk.
  - destruct (vars !! _) as [v|] eqn:Hv; intros [= <-]; [right|by left].
    by exists v.
  - destruct (valueOf _ _) as [v|] eqn:Hv; [|done]. intros [= <-]. right.
    by exists v.
Qed.

Lemma bindArguments_other vars name arguments args args' :
  name ∉ arg_Name <$> arguments →
  bindArguments valueOf vars arguments args = Returns args' →
  args' !! name = args !! name.
Proof.
  revert args. induction arguments as [|arg rest IH]; intros args Hn; simpl.
  - by intros [= ->].
  - rewrite fmap_cons, not_elem_of_cons in Hn. destruct Hn as [Hne Hn].
    intros (args1 & Harg & Hrest)%bind_Returns.
    rewrite (IH args1) by done.
    apply bindArgument_Returns in Harg as [(-> & _)|(v & -> & _)]; [done|].
    by rewrite lookup_insert_ne.
Qed.

Lemma bindArguments_keys vars arguments args args' name :
  bindArguments valueOf vars arguments args = Returns args' →
  is_Some (args' !! name) →
  is_Some (args !! name) ∨ ∃ arg, arg ∈ arguments ∧ arg_Name arg = name.
Proof.
  revert args. induction arguments as [|arg rest IH]; intros args; simpl.
  - intros [= ->]. by left.
  - intros (args1 & Harg & Hrest)%bind_Returns Hname.
    destruct (IH _ Hrest Hname) as [H1|(a & Ha & Hn)].
    + apply bindArgument_Returns in Harg as [(-> & _)|(v & -> & _)];
        [by left|].
      destruct (decide (arg_Name arg = name)) as [Heq|Hne].
      * right. exists arg. split; [by left|done].
      * left. by rewrite lookup_insert_ne in H1.
    + right. exists a. split; [by right|done].
Qed.

(** X9. The arguments map of a created entry is nil exactly when the field
    has no arguments, and every name it binds is the name of one of the
    field's arguments. *)
Theorem created_arguments_come_from_the_field
  vars alias name arguments f :
  newField valueOf vars alias name arguments = Returns f →
  (Args f = None ↔ arguments = [])
  ∧ ∀ key, is_Some (argLookup f key) →
           ∃ arg, arg ∈ arguments ∧ arg_Name arg = key.
Proof.
  destruct arguments as [|a rest]; unfold newField.
  - intros [= <-]. split; [done|]. unfold argLookup. simpl.
    by intros key [v [=]].
  - intros (args & Hb & [= <-])%bind_Returns. split; [done|].
    unfold argLookup. simpl. intros key Hkey.
    destruct (bindArguments_keys vars (a :: rest) ∅ args key Hb Hkey)
      as [[v Hv]|H]; [|done].
    by rewrite lookup_empty in Hv.
Qed.

Lemma bindArguments_bound vars arguments arg args args' :
  NoDup (arg_Name <$> arguments) →
  arg ∈ arguments →
  bindArguments valueOf vars arguments args = Returns args' →
  if decide (Kind (arg_Value arg) = VariableRef)
  then match vars !! Raw (arg_Value arg) with
       | Some v => args' !! arg_Name arg = Some v
       | None => args' !! arg_Name arg = args !! arg_Name arg
       end
  else ∃ v, valueOf (arg_Value arg) vars = Value_ok v
            ∧ args' !! arg_Name arg = Some v.
Proof.
  revert args. induction arguments as [|a rest IH]; intros args Hnd Hin;
    simpl; [by apply elem_of_nil in Hin|].
  rewrite fmap_cons in Hnd. apply NoDup_cons in Hnd as [Hfresh Hnd].
  intros (args1 & Harg & Hrest)%bind_Returns.
  apply elem_of_cons in Hin as [->|Hin].
  - rewrite (bindArguments_other _ _ _ _ _ Hfresh Hrest).
    apply bindArgument_Returns in Harg as [(-> & Hk & Hv)|(v & -> & Hv)].
    + by rewrite decide_True, Hv.
    + rewrite lookup_insert_eq. case_decide; [by rewrite Hv|by eauto].
  - specialize (IH args1 Hnd Hin Hrest).
    assert (arg_Name a ≠ arg_Name arg) as Hne.
    { intros Heq. apply Hfresh. rewrite Heq.
      by apply list_elem_of_fmap_2. }
    case_decide; [|done].
    destruct (vars !! Raw (arg_Value arg)); [done|]. rewrite IH.
    apply bindArgument_Returns in Harg as [(-> & _)|(v & -> & _)]; [done|].
    by rewrite lookup_insert_ne.
Qed.

(** X10. In an entry created for a field whose argument names are all
    different, an argument given as a variable is bound to what the
    variable map holds under that name (and is absent when the map holds
    nothing), and an argument given as a literal is bound to the value
    the literal evaluates to. *)
Theorem created_arguments_bind_their_values
  vars alias name arguments arg f :
  NoDup (arg_Name <$> arguments) →
  arg ∈ arguments →
  newField valueOf vars alias name arguments = Returns f →
  (Kind (arg_Value arg) = VariableRef →
     argLookup f (arg_Name arg) = vars !! Raw (arg_Value arg))
  ∧ (Kind (arg_Value arg) ≠ VariableRef →
     ∃ v, valueOf (arg_Value arg) vars = Value_ok v
          ∧ argLookup f (arg_Name arg) = Some v).
Proof.
  intros Hnd Hin. destruct arguments as [|a rest];
    [by apply elem_of_nil in Hin|].
  unfold newField. intros (args & Hb & [= <-])%bind_Returns.
  pose proof (bindArguments_bound _ _ _ _ _ Hnd Hin Hb) as H.
  unfold argLookup. simpl. split; intros Hk.
  - rewrite decide_True in H by done.
    destruct (vars !! Raw (arg_Value arg)); [done|].
    by rewrite H, lookup_empty.
  - by rewrite decide_False in H.
Qed.

(** X11. A literal argument whose evaluation fails is fatal for the field
    that creates the entry: the creator panics with an evaluation error
    (that of the first failing literal) and no entry is created. *)
Theorem failing_literal_aborts_creation
  vars alias name arguments arg err :
  arg ∈ arguments →
  Kind (arg_Value arg) ≠ VariableRef →
  valueOf (arg_Value arg) vars = Value_err err →
  ∃ err', newField valueOf vars alias name arguments
          = Panics (ValueError err').
Proof.
  intros Hin Hk Herr.
  assert (∀ args, ∃ err', bindArguments valueOf vars arguments args
                          = Panics (ValueError err')) as Hb.
  { induction arguments as [|a rest IH]; intros args;
      [by apply elem_of_nil in Hin|].
    simpl. unfold bindArgument at 1.
    apply elem_of_cons in Hin as [<-|Hin].
    - rewrite decide_False, Herr by done. by eauto.
    - case_decide.
      + destruct (vars !! _); simpl; by apply IH.
      + destruct (valueOf (arg_Value a) vars); simpl;
          [by apply IH|by eauto]. }
  destruct arguments as [|a rest]; [by apply elem_of_nil in Hin|].
  unfold newField. destruct (Hb ∅) as [err' ->]. by eauto.
Qed.
End ArgumentFacts.

(** ** Response keys of the result *)

Lemma aliases_alter sels i (c : list CollectedField) :
  Alias <$> alter (appendSelections sels) i c = Alias <$> c.
Proof.
  revert i. induction c as [|f c IH]; intros [|i]; [done..|].
  simpl. f_equal. apply IH.
Qed.

Lemma findAlias_None_aliases c key :
  findAlias c key = None ↔ key ∉ Alias <$> c.
Proof.
  rewrite findAlias_None, list_elem_of_fmap. split.
  - intros H (f & -> & Hf). by apply (H f).
  - intros H f Hf Ha. apply H. by exists f.
Qed.

Lemma findAlias_Some_aliases c key i :
  findAlias c key = Some i → key ∈ Alias <$> c.
Proof.
  intros (f & Hf & <-)%findAlias_Some.
  apply list_elem_of_fmap_2. by eapply list_elem_of_lookup_2.
Qed.

Lemma ForName_elem_of fragments name fragment :
  FragmentDefinitionList_ForName fragments name = Some fragment →
  fragment ∈ fragments.
Proof.
  induction fragments as [|f l IH]; simpl; [done|].
  case_decide; [intros [= ->]; by left|]. intros Hl. right. by apply IH.
Qed.

Lemma getOrCreateField_NoDup c key creator c' i :
  (∀ f, creator () = Returns f → Alias f = key) →
  NoDup (Alias <$> c) →
  getOrCreateField c key creator = Returns (c', i) →
  NoDup (Alias <$> c').
Proof.
  intros Hcreator Hnd. unfold getOrCreateField.
  destruct (findAlias c key) as [k|] eqn:Hk; [by intros [= <- _]|].
  intros (f & Hf & [= <- _])%bind_Returns.
  rewrite fmap_app. apply NoDup_app. split; [done|]. split.
  - intros x Hx ->%list_elem_of_singleton.
    rewrite (Hcreator f Hf) in Hx. by apply findAlias_None_aliases in Hk.
  - apply NoDup_singleton.
Qed.

Lemma getOrCreateField_Forall (P : CollectedField → Prop) c key creator c' i :
  (∀ f, creator () = Returns f → P f) →
  Forall P c →
  getOrCreateField c key creator = Returns (c', i) →
  Forall P c'.
Proof.
  intros Hcreator Hc. unfold getOrCreateField.
  destruct (findAlias c key) as [k|]; [by intros [= <- _]|].
  intros (f & Hf & [= <- _])%bind_Returns.
  apply Forall_app. split; [done|]. apply Forall_singleton. by apply Hcreator.
Qed.

Lemma mergeChildren_NoDup g children g' :
  Forall unaliased children →
  NoDup (Alias <$> g) →
  mergeChildren g children = Returns g' →
  NoDup (Alias <$> g').
Proof.
  intros Hch. revert g. induction Hch as [|child rest Hchild _ IH];
    intros g Hnd; simpl; [by intros [= <-]|].
  intros (g1 & H1 & H2)%bind_Returns. apply (IH g1); [|done].
  unfold mergeChild in H1.
  apply bind_Returns in H1 as ([c i] & Hget & [= <-]).
  rewrite aliases_alter.
  eapply getOrCreateField_NoDup; [|done..]. by intros f [= <-].
Qed.

Lemma mergeChildren_unaliased g children g' :
  Forall unaliased children →
  Forall unaliased g →
  mergeChildren g children = Returns g' →
  Forall unaliased g'.
Proof.
  intros Hch. revert g. induction Hch as [|child rest Hchild _ IH];
    intros g Hg; simpl; [by intros [= <-]|].
  intros (g1 & H1 & H2)%bind_Returns. apply (IH g1); [|done].
  unfold mergeChild in H1.
  apply bind_Returns in H1 as ([c i] & Hget & [= <-]).
  apply Forall_alter; [|by intros].
  eapply getOrCreateField_Forall; [|done..]. by intros f [= <-].
Qed.

Section ResponseKeys.
Variable valueOf : Value → gmap string GoValue → Evaluated.
Variable reqCtx : RequestContext.
Variable satisfies : list string.

Lemma foldSelections_unaliased
  (step : Selection → WalkState → Outcome WalkState) ss :
  Forall (λ sel, plain sel = true → ∀ st st',
            Forall unaliased st.1 → step sel st = Returns st' →
            Forall unaliased st'.1) ss →
  forallb plain ss = true →
  ∀ st st', Forall unaliased st.1 → foldSelections step ss st = Returns st' →
            Forall unaliased st'.1.
Proof.
  induction 1 as [|sel ss Hsel _ IH]; intros Hplain st st' Hst; simpl.
  - by intros [= <-].
  - simpl in Hplain. apply andb_prop in Hplain as [Hp Hps].
    intros (st1 & H1 & H2)%bind_Returns.
    apply (IH Hps st1); [|done]. by apply (Hsel Hp st).
Qed.

Lemma collectSel_unaliased expand sel :
  yieldsUnaliased reqCtx expand →
  plain sel = true →
  ∀ st st', Forall unaliased st.1 →
            collectSel valueOf reqCtx satisfies expand sel st = Returns st' →
            Forall unaliased st'.1.
Proof.
  intros Hexp. induction sel as [a n args dirs ss _|tc dirs ss IH|n dirs|]
    using Selection_nested_ind; intros Hplain [g v] [g' v'] Hg; simpl in *.
  - apply bool_decide_eq_true in Hplain as ->.
    intros (inc & _ & H)%bind_Returns. destruct inc; simpl in H;
      [|by injection H as <- _].
    apply bind_Returns in H as ([c i] & Hget & [= <- _]).
    apply Forall_alter; [|by intros].
    eapply getOrCreateField_Forall; [|done..].
    intros f Hf. apply newField_Alias in Hf as (Ha & Hn & _).
    unfold unaliased. congruence.
  - intros (inc & _ & H)%bind_Returns.
    destruct (negb inc || _); [by injection H as <- _|].
    apply bind_Returns in H as ([children v1] & Hfold & H).
    apply bind_Returns in H as (g1 & Hm & [= <- _]).
    eapply mergeChildren_unaliased; [|done..].
    by apply (foldSelections_unaliased _ _ IH Hplain ([], v) (children, v1)).
  - intros (inc & _ & H)%bind_Returns. destruct inc; simpl in H;
      [|by injection H as <- _].
    case_decide; [by injection H as <- _|].
    destruct (FragmentDefinitionList_ForName _ _) as [fragment|] eqn:Hf;
      [|done].
    destruct (negb (instanceOf _ satisfies)); [by injection H as <- _|].
    apply bind_Returns in H as ([children v1] & Hrec & H).
    apply bind_Returns in H as (g1 & Hm & [= <- _]).
    eapply mergeChildren_unaliased; [|done..].
    eapply Hexp; [|done]. by eapply ForName_elem_of.
  - done.
Qed.

Lemma expansion_yieldsUnaliased fuel :
  plainFragments reqCtx →
  yieldsUnaliased reqCtx (expansion valueOf reqCtx satisfies fuel).
Proof.
  intros Hdoc. induction fuel as [|fuel IH]; intros fragment v g v' Hin;
    simpl; [done|].
  rewrite collectFields_unfold. intros H.
  apply (foldSelections_unaliased _ (frag_SelectionSet fragment)) in H;
    [done| |by apply Hdoc|by apply Forall_nil].
  apply Forall_forall. intros sel _ Hp. by apply collectSel_unaliased.
Qed.

Lemma collectSel_NoDup expand sel g v g' v' :
  yieldsUnaliased reqCtx expand →
  plainInside sel = true →
  NoDup (Alias <$> g) →
  collectSel valueOf reqCtx satisfies expand sel (g, v) = Returns (g', v') →
  NoDup (Alias <$> g').
Proof.
  intros Hexp Hplain Hnd.
  destruct sel as [a n args dirs ss|tc dirs ss|n dirs|]; simpl in *;
    [| | |done].
  - intros (inc & _ & H)%bind_Returns. destruct inc; simpl in H;
      [|by injection H as <- _].
    apply bind_Returns in H as ([c i] & Hget & [= <- _]).
    rewrite aliases_alter. eapply getOrCreateField_NoDup; [|done..].
    intros f Hf. by apply newField_Alias in Hf as (Ha & _ & _).
  - intros (inc & _ & H)%bind_Returns.
    destruct (negb inc || _); [by injection H as <- _|].
    apply bind_Returns in H as ([children v1] & Hfold & H).
    apply bind_Returns in H as (g1 & Hm & [= <- _]).
    eapply mergeChildren_NoDup; [|done..].
    apply (foldSelections_unaliased _ ss) in Hfold;
      [done| |done|by apply Forall_nil].
    apply Forall_forall. intros sel _ Hp. by apply collectSel_unaliased.
  - intros (inc & _ & H)%bind_Returns. destruct inc; simpl in H;
      [|by injection H as <- _].
    case_decide; [by injection H as <- _|].
    destruct (FragmentDefinitionList_ForName _ _) as [fragment|] eqn:Hf;
      [|done].
    destruct (negb (instanceOf _ satisfies)); [by injection H as <- _|].
    apply bind_Returns in H as ([children v1] & Hrec & H).
    apply bind_Returns in H as (g1 & Hm & [= <- _]).
    eapply mergeChildren_NoDup; [|done..].
    eapply Hexp; [|done]. by eapply ForName_elem_of.
Qed.

(** X12. When every field that fragments bring in (through inline
    fragments of the selection set and through the fragments of the
    document) has its name as alias, the result of [CollectFields] has no
    two entries with the same response key.  Fields written directly in
    the selection set may carry any alias. *)
Theorem response_keys_unique_without_fragment_aliases selSet r :
  plainFragments reqCtx →
  forallb plainInside selSet = true →
  CollectFields valueOf reqCtx selSet satisfies = Returns r →
  NoDup (Alias <$> r).
Proof.
  intros Hdoc Hsel. unfold CollectFields.
  intros ([g v] & H & [= <-])%bind_Returns.
  rewrite collectFields_unfold in H.
  pose proof (expansion_yieldsUnaliased (length (Fragments (Doc reqCtx)))
                Hdoc) as Hexp.
  assert (NoDup (Alias <$> ([] : list CollectedField))) as Hnil
    by apply NoDup_nil_2.
  revert H Hnil. generalize ([] : list CollectedField) as g0.
  generalize (∅ : gset string) as v0.
  induction selSet as [|sel ss IH]; intros v0 g0; simpl.
  - by intros [= <- _].
  - simpl in Hsel. apply andb_prop in Hsel as [Hp Hps].
    intros ([g1 v1] & H1 & H2)%bind_Returns Hnd.
    apply (IH Hps v1 g1 H2). by eapply collectSel_NoDup.
Qed.
End ResponseKeys.

(** ** Order of the result, and what a longer selection set changes *)

Lemma grewFrom_refl g : grewFrom g g.
Proof. intros i f Hf. exists f, []. by rewrite app_nil_r. Qed.

Lemma grewFrom_trans g1 g2 g3 :
  grewFrom g1 g2 → grewFrom g2 g3 → grewFrom g1 g3.
Proof.
  intros H12 H23 i f1 Hf1.
  destruct (H12 i f1 Hf1) as (f2 & m1 & Hf2 & Hh2 & Hs2).
  destruct (H23 i f2 Hf2) as (f3 & m2 & Hf3 & Hh3 & Hs3).
  exists f3, (m1 ++ m2). split; [done|]. split; [congruence|].
  by rewrite Hs3, Hs2, app_assoc.
Qed.

Lemma grewFrom_alter sels i g : grewFrom g (alter (appendSelections sels) i g).
Proof.
  intros j f Hf. destruct (decide (i = j)) as [->|Hne].
  - exists (appendSelections sels f), sels.
    by rewrite list_lookup_alter_eq, Hf.
  - exists f, []. rewrite list_lookup_alter_ne by done.
    by rewrite app_nil_r.
Qed.

Lemma grewFrom_created g x : grewFrom g (g ++ [x]).
Proof.
  intros i f Hf. exists f, []. rewrite app_nil_r.
  by rewrite lookup_app_l by by eapply lookup_lt_Some.
Qed.

Lemma getOrCreateField_grewFrom c key creator c' i :
  getOrCreateField c key creator = Returns (c', i) → grewFrom c c'.
Proof.
  unfold getOrCreateField. destruct (findAlias c key).
  - intros [= <- _]. apply grewFrom_refl.
  - intros (f & _ & [= <- _])%bind_Returns. apply grewFrom_created.
Qed.

Lemma mergeChildren_grewFrom g children g' :
  mergeChildren g children = Returns g' → grewFrom g g'.
Proof.
  revert g. induction children as [|child rest IH]; intros g; simpl.
  - intros [= <-]. apply grewFrom_refl.
  - intros (g1 & H1 & H2)%bind_Returns.
    eapply grewFrom_trans; [|by apply IH].
    unfold mergeChild in H1.
    apply bind_Returns in H1 as ([c i] & Hget & [= <-]).
    eapply grewFrom_trans; [by eapply getOrCreateField_grewFrom|].
    apply grewFrom_alter.
Qed.

Section Order.
Variable valueOf : Value → gmap string GoValue → Evaluated.
Variable reqCtx : RequestContext.
Variable satisfies : list string.
Variable expand : list Selection → gset string → Outcome WalkState.

Lemma collectSel_field_keys sel g v g' v' :
  isField sel →
  collectSel valueOf reqCtx satisfies expand sel (g, v) = Returns (g', v') →
  Alias <$> g'
  = foldl addKey (Alias <$> g)
      (includedAliases valueOf (Variables reqCtx) [sel])
  ∧ v' = v.
Proof.
  destruct sel as [a n args dirs ss| | |]; [|done..]. intros _.
  unfold includedAliases. simpl.
  destruct (shouldIncludeNode _ _ _) as [[]| |]; simpl; [| |done..].
  - intros ([c i] & Hget & [= <- <-])%bind_Returns. split; [|done].
    rewrite aliases_alter. unfold addKey, getOrCreateField in *.
    destruct (findAlias g a) as [k|] eqn:Hk.
    + injection Hget as <- _.
      by rewrite decide_True by by eapply findAlias_Some_aliases.
    + apply bind_Returns in Hget as (f & Hf & [= <- _]).
      apply newField_Alias in Hf as (Ha & _ & _).
      rewrite decide_False by by apply findAlias_None_aliases.
      by rewrite fmap_app, <- Ha.
  - by intros [= <- <-].
Qed.

Lemma foldSelections_field_keys ss g v g' v' :
  Forall isField ss →
  foldSelections (collectSel valueOf reqCtx satisfies expand) ss (g, v)
    = Returns (g', v') →
  Alias <$> g'
  = foldl addKey (Alias <$> g) (includedAliases valueOf (Variables reqCtx) ss)
  ∧ v' = v.
Proof.
  intros Hall. revert g v.
  induction Hall as [|sel ss Hsel _ IH]; intros g v.
  - by intros [= <- <-].
  - rewrite foldSelections_cons.
    intros ([g1 v1] & H1 & H2)%bind_Returns.
    apply collectSel_field_keys in H1 as [H1 ->]; [|done].
    apply IH in H2 as [H2 ->]. split; [|done].
    rewrite H2, H1. unfold includedAliases. simpl.
    by rewrite app_nil_r, foldl_app.
Qed.

Lemma collectSel_grewFrom sel g v g' v' :
  collectSel valueOf reqCtx satisfies expand sel (g, v) = Returns (g', v') →
  grewFrom g g'.
Proof.
  destruct sel as [a n args dirs ss|tc dirs ss|n dirs|]; simpl; [| | |done].
  - intros (inc & _ & H)%bind_Returns. destruct inc; simpl in H;
      [|injection H as <- _; apply grewFrom_refl].
    apply bind_Returns in H as ([c i] & Hget & [= <- _]).
    eapply grewFrom_trans; [by eapply getOrCreateField_grewFrom|].
    apply grewFrom_alter.
  - intros (inc & _ & H)%bind_Returns.
    destruct (negb inc || _); [injection H as <- _; apply grewFrom_refl|].
    apply bind_Returns in H as ([children v1] & _ & H).
    apply bind_Returns in H as (g1 & Hm & [= <- _]).
    by eapply mergeChildren_grewFrom.
  - intros (inc & _ & H)%bind_Returns. destruct inc; simpl in H;
      [|injection H as <- _; apply grewFrom_refl].
    case_decide; [injection H as <- _; apply grewFrom_refl|].
    destruct (FragmentDefinitionList_ForName _ _) as [fragment|]; [|done].
    destruct (negb (instanceOf _ satisfies));
      [injection H as <- _; apply grewFrom_refl|].
    apply bind_Returns in H as ([children v1] & _ & H).
    apply bind_Returns in H as (g1 & Hm & [= <- _]).
    by eapply mergeChildren_grewFrom.
Qed.

Lemma foldSelections_grewFrom ss g v g' v' :
  foldSelections (collectSel valueOf reqCtx satisfies expand) ss (g, v)
    = Returns (g', v') →
  grewFrom g g'.
Proof.
  revert g v. induction ss as [|sel ss IH]; intros g v.
  - intros [= <- _]. apply grewFrom_refl.
  - rewrite foldSelections_cons.
    intros ([g1 v1] & H1 & H2)%bind_Returns.
    eapply grewFrom_trans; [by eapply collectSel_grewFrom|by eapply IH].
Qed.
End Order.

Section OrderTheorems.
Variable valueOf : Value → gmap string GoValue → Evaluated.

(** X13. For a selection set of field nodes only, the response keys of the
    result are the aliases of the fields their directives include, each
    once, in the order in which they first appear (not sorted); no
    fragment is visited. *)
Theorem field_only_result_order
  fuel reqCtx selSet satisfies visited g visited' :
  Forall isField selSet →
  collectFields valueOf fuel reqCtx selSet satisfies visited
    = Returns (g, visited') →
  Alias <$> g
  = firstKeys (includedAliases valueOf (Variables reqCtx) selSet)
  ∧ visited' = visited.
Proof.
  intros Hall. rewrite collectFields_unfold. intros H.
  by apply foldSelections_field_keys in H.
Qed.

(** X14. Collecting a longer selection set only adds to what the shorter
    one gave: every entry collected for [pre] is, in the result for
    [pre ++ post], at the same position with the same alias, name and
    arguments, and its child selections are extended at the end, never
    shortened or reordered. *)
Theorem longer_selection_set_only_extends
  fuel reqCtx satisfies pre post visited g1 v1 g2 v2 :
  collectFields valueOf fuel reqCtx pre satisfies visited
    = Returns (g1, v1) →
  collectFields valueOf fuel reqCtx (pre ++ post) satisfies visited
    = Returns (g2, v2) →
  grewFrom g1 g2.
Proof.
  rewrite !collectFields_unfold, foldSelections_app. intros -> H.
  by apply foldSelections_grewFrom in H.
Qed.
End OrderTheorems.

(** ** [satisfies] as a set, and spreads as inline fragments *)

Lemma foldSelections_ext {S} (step1 step2 : Selection → S → Outcome S) ss :
  Forall (λ sel, ∀ st, step1 sel st = step2 sel st) ss →
  ∀ st, foldSelections step1 ss st = foldSelections step2 ss st.
Proof.
  induction 1 as [|sel ss Hsel _ IH]; intros st; simpl; [done|].
  rewrite Hsel. destruct (step2 sel st); simpl; [apply IH|done..].
Qed.

Section Equivalences.
Variable valueOf : Value → gmap string GoValue → Evaluated.
Variable reqCtx : RequestContext.

Lemma instanceOf_ext satisfies1 satisfies2 val :
  (∀ t, t ∈ satisfies1 ↔ t ∈ satisfies2) →
  instanceOf val satisfies1 = instanceOf val satisfies2.
Proof.
  intros Hsame. destruct (instanceOf val satisfies2) eqn:H2.
  - by apply instanceOf_spec, Hsame, instanceOf_spec.
  - apply instanceOf_false. rewrite Hsame. by apply instanceOf_false.
Qed.

Lemma collectSel_satisfies_ext satisfies1 satisfies2 e1 e2 sel :
  (∀ t, t ∈ satisfies1 ↔ t ∈ satisfies2) →
  (∀ ss v, e1 ss v = e2 ss v) →
  ∀ st, collectSel valueOf reqCtx satisfies1 e1 sel st
        = collectSel valueOf reqCtx satisfies2 e2 sel st.
Proof.
  intros Hsame Hexp.
  induction sel as [a n args dirs ss _|tc dirs ss IH|n dirs|]
    using Selection_nested_ind; intros [g v]; simpl; [done| | |done].
  - destruct (shouldIncludeNode _ _ _) as [inc| |]; simpl; [|done..].
    rewrite (instanceOf_ext satisfies1 satisfies2) by done.
    destruct (negb inc || _); [done|].
    by rewrite (foldSelections_ext _ _ _ IH).
  - destruct (shouldIncludeNode _ _ _) as [[]| |]; simpl; [|done..].
    case_decide; [done|].
    destruct (FragmentDefinitionList_ForName _ _) as [fragment|]; [|done].
    rewrite (instanceOf_ext satisfies1 satisfies2) by done.
    destruct (negb (instanceOf _ satisfies2)); [done|]. by rewrite Hexp.
Qed.

Lemma collectFields_satisfies_ext satisfies1 satisfies2 fuel selSet visited :
  (∀ t, t ∈ satisfies1 ↔ t ∈ satisfies2) →
  collectFields valueOf fuel reqCtx selSet satisfies1 visited
  = collectFields valueOf fuel reqCtx selSet satisfies2 visited.
Proof.
  intros Hsame. revert selSet visited.
  induction fuel as [|fuel IH]; intros selSet visited; simpl;
    unfold collectWith; apply foldSelections_ext, Forall_forall;
    intros sel _; by apply collectSel_satisfies_ext.
Qed.

(** X15. [satisfies] is read as a set: two lists with the same members, in
    whatever order and with whatever repetitions, give the same outcome
    of [CollectFields]. *)
Theorem satisfies_is_a_set satisfies1 satisfies2 selSet :
  (∀ t, t ∈ satisfies1 ↔ t ∈ satisfies2) →
  CollectFields valueOf reqCtx selSet satisfies1
  = CollectFields valueOf reqCtx selSet satisfies2.
Proof.
  intros Hsame. unfold CollectFields.
  by rewrite (collectFields_satisfies_ext satisfies1 satisfies2).
Qed.

(** X16. A fragment spread that its directives include, of a fragment not
    yet visited, does what an inline fragment with the type condition and
    the selection set of that fragment does once the name is marked
    visited (the budget covering the names still to visit). *)
Theorem spread_acts_as_inline_fragment
  satisfies fuel name dirs fragment g visited :
  FragmentDefinitionList_ForName (Fragments (Doc reqCtx)) name
    = Some fragment →
  name ∉ visited →
  shouldIncludeNode valueOf dirs (Variables reqCtx) = Returns true →
  (pending reqCtx ({[name]} ∪ visited) ≤ fuel)%nat →
  collectSel valueOf reqCtx satisfies
    (expansion valueOf reqCtx satisfies (S fuel))
    (FragmentSpread name dirs) (g, visited)
  = collectSel valueOf reqCtx satisfies
      (expansion valueOf reqCtx satisfies (S fuel))
      (InlineFragment (frag_TypeCondition fragment) dirs
         (frag_SelectionSet fragment))
      (g, {[name]} ∪ visited).
Proof.
  intros Hf Hfresh Hinc Hfuel.
  assert (collectFields valueOf fuel reqCtx (frag_SelectionSet fragment)
            satisfies ({[name]} ∪ visited)
          = foldSelections
              (collectSel valueOf reqCtx satisfies
                 (expansion valueOf reqCtx satisfies (S fuel)))
              (frag_SelectionSet fragment) ([], {[name]} ∪ visited)) as E.
  { rewrite <- collectFields_unfold. symmetry.
    apply collectFields_more_fuel; [lia|]. by apply collectFields_total. }
  cbn [collectSel]. rewrite Hinc. cbn [bind negb orb].
  rewrite decide_False by done. rewrite Hf.
  destruct (negb (instanceOf _ satisfies)); [done|].
  cbn [expansion]. by rewrite E.
Qed.
End Equivalences.

(** ** Merged child selections *)

Lemma NoDup_entriesFor key c x rest :
  NoDup (Alias <$> c) → entriesFor key c = x :: rest → rest = [].
Proof.
  unfold entriesFor. induction c as [|y c IH]; [done|].
  rewrite fmap_cons, NoDup_cons. intros [Hy Hnd].
  destruct (decide (Alias y = key)) as [Hk|Hk].
  - rewrite filter_cons_True by done. intros [= _ <-].
    apply entriesFor_findAlias_None, findAlias_None_aliases. by rewrite <- Hk.
  - rewrite filter_cons_False by done. by apply IH.
Qed.

Lemma entriesFor_member key c f :
  NoDup (Alias <$> c) → f ∈ c → Alias f = key → entriesFor key c = [f].
Proof.
  intros Hnd Hf Hk.
  assert (f ∈ entriesFor key c) as Hin by by apply list_elem_of_filter.
  destruct (entriesFor key c) as [|x rest] eqn:He;
    [by apply elem_of_nil in Hin|].
  rewrite (NoDup_entriesFor _ _ _ _ Hnd He) in *.
  by apply list_elem_of_singleton in Hin as ->.
Qed.

Section MergedSelections.
Variable valueOf : Value → gmap string GoValue → Evaluated.
Variable reqCtx : RequestContext.
Variable satisfies : list string.
Variable expand : list Selection → gset string → Outcome WalkState.

Lemma collectSel_field_selections sel g v g' v' :
  isField sel →
  NoDup (Alias <$> g) →
  collectSel valueOf reqCtx satisfies expand sel (g, v) = Returns (g', v') →
  NoDup (Alias <$> g')
  ∧ ∀ key, selectionsFor key g'
           = selectionsFor key g
             ++ includedSelections valueOf (Variables reqCtx) key [sel].
Proof.
  destruct sel as [a n args dirs ss| | |]; [|done..]. intros _ Hnd.
  unfold includedSelections, selectionsFor. simpl.
  destruct (shouldIncludeNode _ _ _) as [[]| |]; simpl; [| |done..].
  - intros ([c i] & Hget & [= <- <-])%bind_Returns. split.
    { rewrite aliases_alter. eapply getOrCreateField_NoDup; [|done..].
      intros f Hf. by apply newField_Alias in Hf as (Ha & _ & _). }
    intros key. unfold getOrCreateField in Hget.
    destruct (findAlias g a) as [k|] eqn:Hk.
    + injection Hget as <- <-.
      rewrite (entriesFor_alter key a) by done.
      destruct (decide (key = a)) as [->|Hne].
      * rewrite decide_True by done.
        destruct (entriesFor a g) as [|x rest] eqn:He.
        { apply entriesFor_findAlias_None in He. congruence. }
        rewrite (NoDup_entriesFor _ _ _ _ Hnd He). simpl.
        by rewrite !app_nil_r.
      * rewrite decide_False by done. by rewrite app_nil_r.
    + apply bind_Returns in Hget as (f & Hf & [= <- <-]).
      apply newField_Alias in Hf as (Ha & _ & Hs).
      rewrite alter_created, entriesFor_created, flat_map_app. simpl.
      destruct (decide (a = key)) as [->|Hne].
      * rewrite decide_True by done. simpl. by rewrite Hs.
      * rewrite decide_False by congruence. done.
  - intros [= <- <-]. split; [done|]. intros key.
    destruct (decide (a = key)); by rewrite app_nil_r.
Qed.

Lemma foldSelections_field_selections ss g v g' v' :
  Forall isField ss →
  NoDup (Alias <$> g) →
  foldSelections (collectSel valueOf reqCtx satisfies expand) ss (g, v)
    = Returns (g', v') →
  NoDup (Alias <$> g')
  ∧ ∀ key, selectionsFor key g'
           = selectionsFor key g
             ++ includedSelections valueOf (Variables reqCtx) key ss.
Proof.
  intros Hall. revert g v.
  induction Hall as [|sel ss Hsel _ IH]; intros g v Hnd.
  - intros [= <- <-]. split; [done|]. intros key. by rewrite app_nil_r.
  - rewrite foldSelections_cons.
    intros ([g1 v1] & H1 & H2)%bind_Returns.
    apply collectSel_field_selections in H1 as [Hnd1 H1]; [|done..].
    apply IH in H2 as [Hnd2 H2]; [|done]. split; [done|]. intros key.
    rewrite H2, H1, <- app_assoc. f_equal.
    unfold includedSelections. simpl. by rewrite app_nil_r.
Qed.
End MergedSelections.

Section MergedSelectionsTheorem.
Variable valueOf : Value → gmap string GoValue → Evaluated.

(** X17. For a selection set of field nodes only, every entry of the
    result is the only one with its response key, and its child
    selections are the selection sets of all the included field nodes
    with that alias, concatenated in the order of the nodes. *)
Theorem field_only_selections_concatenate
  reqCtx selSet satisfies r f :
  Forall isField selSet →
  CollectFields valueOf reqCtx selSet satisfies = Returns r →
  f ∈ r →
  entriesFor (Alias f) r = [f]
  ∧ Selections f
    = includedSelections valueOf (Variables reqCtx) (Alias f) selSet.
Proof.
  intros Hall. unfold CollectFields.
  intros ([g v] & H & [= <-])%bind_Returns Hf.
  rewrite collectFields_unfold in H.
  apply foldSelections_field_selections in H as [Hnd H];
    [|done|apply NoDup_nil_2].
  pose proof (entriesFor_member (Alias f) g f Hnd Hf eq_refl) as He.
  split; [done|]. specialize (H (Alias f)).
  unfold selectionsFor in H. rewrite He in H. simpl in H.
  by rewrite app_nil_r in H.
Qed.
End MergedSelectionsTheorem.

(** * The further facts at concrete inputs *)

(** X2: asking for [b] in a slice that holds only [a]. *)
Lemma getOrCreateField_result_witness :
  getOrCreateField [collected "a" []] "b" makeB
    = Returns ([collected "a" []; collected "b" []], 1%nat)
  ∧ ∃ f, [collected "a" []; collected "b" []] !! 1%nat = Some f
         ∧ (∀ j g, (j < 1)%nat →
              [collected "a" []; collected "b" []] !! j = Some g →
              Alias g ≠ "b")
         ∧ (([collected "a" []; collected "b" []] = [collected "a" []]
             ∧ Alias f = "b"
             ∧ findAlias [collected "a" []] "b" = Some 1%nat)
            ∨ ([collected "a" []; collected "b" []]
                 = [collected "a" []] ++ [f]
               ∧ 1%nat = length [collected "a" []]
               ∧ makeB () = Returns f
               ∧ findAlias [collected "a" []] "b" = None)).
Proof.
  assert (getOrCreateField [collected "a" []] "b" makeB
          = Returns ([collected "a" []; collected "b" []], 1%nat)) as Hrun
    by reflexivity.
  split; [exact Hrun|].
  exact (getOrCreateField_result [collected "a" []] "b" makeB _ _ Hrun).
Defined.

(** X3: and asking for [b] once more. *)
Lemma getOrCreateField_again_witness :
  getOrCreateField [collected "a" []] "b" makeB
    = Returns ([collected "a" []; collected "b" []], 1%nat)
  ∧ [collected "a" []; collected "b" []] !! 1%nat = Some (collected "b" [])
  ∧ Alias (collected "b" []) = "b"
  ∧ getOrCreateField [collected "a" []; collected "b" []] "b"
      (λ _, Panics Unsupported)
    = Returns ([collected "a" []; collected "b" []], 1%nat).
Proof.
  assert (getOrCreateField [collected "a" []] "b" makeB
          = Returns ([collected "a" []; collected "b" []], 1%nat)) as Hrun
    by reflexivity.
  split; [exact Hrun|]. split; [reflexivity|]. split; [reflexivity|].
  exact (getOrCreateField_again [collected "a" []] "b" makeB
           (λ _, Panics Unsupported) _ _ (collected "b" []) Hrun eq_refl
           eq_refl).
Defined.

(** X5: [b  a @skip(if: true)  c]. *)
Lemma excluded_node_is_dropped_witness :
  shouldIncludeNode literalValue (directivesOf skippedField)
    (Variables emptyCtx) = Returns false
  ∧ collectFields literalValue 0 emptyCtx
      ([leaf "b"] ++ skippedField :: [leaf "c"]) [] ∅
    = collectFields literalValue 0 emptyCtx ([leaf "b"] ++ [leaf "c"]) [] ∅.
Proof.
  assert (shouldIncludeNode literalValue (directivesOf skippedField)
            (Variables emptyCtx) = Returns false) as Hex
    by (vm_compute; reflexivity).
  split; [exact Hex|].
  exact (excluded_node_is_dropped literalValue 0 emptyCtx [] [leaf "b"]
           skippedField [leaf "c"] ∅ Hex).
Defined.

(** X7: [...Outer] in [spreadCtx]. *)
Lemma visited_names_are_fragments_witness :
  collectFields literalValue 3 spreadCtx [FragmentSpread "Outer" []] ["T"] ∅
    = Returns ([collected "b" []], {["Inner"]} ∪ ({["Outer"]} ∪ ∅))
  ∧ (∅ : gset string) ⊆ {["Inner"]} ∪ ({["Outer"]} ∪ ∅)
  ∧ ({["Inner"]} ∪ ({["Outer"]} ∪ ∅) : gset string)
    ⊆ ∅ ∪ fragmentNames spreadCtx.
Proof.
  assert (collectFields literalValue 3 spreadCtx [FragmentSpread "Outer" []]
            ["T"] ∅
          = Returns ([collected "b" []], {["Inner"]} ∪ ({["Outer"]} ∪ ∅)))
    as Hrun by (vm_compute; reflexivity).
  split; [exact Hrun|].
  exact (visited_names_are_fragments literalValue 3 spreadCtx
           [FragmentSpread "Outer" []] ["T"] ∅ _ _ Hrun).
Defined.

(** X8: [a ...Gone] with no fragment defined. *)
Lemma missing_fragment_aborts_witness :
  FragmentDefinitionList_ForName (Fragments (Doc emptyCtx)) "Gone" = None
  ∧ shouldIncludeNode literalValue [] (Variables emptyCtx) = Returns true
  ∧ CollectFields literalValue emptyCtx [leaf "a"] []
    = Returns [collected "a" []]
  ∧ CollectFields literalValue emptyCtx
      ([leaf "a"] ++ FragmentSpread "Gone" [] :: [leaf "z"]) []
    = Panics (MissingFragment "Gone").
Proof.
  assert (CollectFields literalValue emptyCtx [leaf "a"] []
          = Returns [collected "a" []]) as Hpre by (vm_compute; reflexivity).
  split; [reflexivity|]. split; [reflexivity|]. split; [exact Hpre|].
  exact (proj1 (missing_fragment_aborts literalValue emptyCtx []
                  [leaf "a"] "Gone" [] [leaf "z"] eq_refl eq_refl) _ Hpre).
Defined.

(** X9: [pet(id: 1)]. *)
Lemma created_arguments_come_from_the_field_witness :
  newField literalValue ∅ "pet" "pet" idOne
    = Returns {| Alias := "pet"; Name := "pet";
                 Args := Some {["id" := GoInt 1]}; Selections := [] |}
  ∧ (Some ({["id" := GoInt 1]} : gmap string GoValue) = None ↔ idOne = []).
Proof.
  assert (newField literalValue ∅ "pet" "pet" idOne
          = Returns {| Alias := "pet"; Name := "pet";
                       Args := Some {["id" := GoInt 1]};
                       Selections := [] |}) as Hrun
    by (vm_compute; reflexivity).
  split; [exact Hrun|].
  exact (proj1 (created_arguments_come_from_the_field literalValue ∅ "pet"
                  "pet" idOne _ Hrun)).
Defined.

(** X10: [pet(id: 1)], the literal is bound to the integer 1. *)
Lemma created_arguments_bind_their_values_witness :
  NoDup (arg_Name <$> idOne)
  ∧ idOneArg ∈ idOne
  ∧ newField literalValue ∅ "pet" "pet" idOne
    = Returns {| Alias := "pet"; Name := "pet";
                 Args := Some {["id" := GoInt 1]}; Selections := [] |}
  ∧ Kind (arg_Value idOneArg) ≠ VariableRef
  ∧ ∃ v, literalValue (arg_Value idOneArg) ∅ = Value_ok v
         ∧ argLookup {| Alias := "pet"; Name := "pet";
                        Args := Some {["id" := GoInt 1]};
                        Selections := [] |} (arg_Name idOneArg) = Some v.
Proof.
  assert (NoDup (arg_Name <$> idOne)) as Hnd by apply NoDup_singleton.
  assert (idOneArg ∈ idOne) as Hin by apply list_elem_of_here.
  assert (newField literalValue ∅ "pet" "pet" idOne
          = Returns {| Alias := "pet"; Name := "pet";
                       Args := Some {["id" := GoInt 1]};
                       Selections := [] |}) as Hrun
    by (vm_compute; reflexivity).
  assert (Kind (arg_Value idOneArg) ≠ VariableRef) as Hk by discriminate.
  split; [exact Hnd|]. split; [exact Hin|]. split; [exact Hrun|].
  split; [exact Hk|].
  exact (proj2 (created_arguments_bind_their_values literalValue ∅ "pet"
                  "pet" idOne idOneArg _ Hnd Hin Hrun) Hk).
Defined.

(** X11: [pet(n: x1)] with [x1] where an integer is expected. *)
Lemma failing_literal_aborts_creation_witness :
  badIntArg ∈ [idOneArg; badIntArg]
  ∧ Kind (arg_Value badIntArg) ≠ VariableRef
  ∧ literalValue (arg_Value badIntArg) ∅ = Value_err "invalid syntax"
  ∧ ∃ err', newField literalValue ∅ "pet" "pet" [idOneArg; badIntArg]
            = Panics (ValueError err').
Proof.
  assert (badIntArg ∈ [idOneArg; badIntArg]) as Hin
    by apply list_elem_of_further, list_elem_of_here.
  assert (Kind (arg_Value badIntArg) ≠ VariableRef) as Hk by discriminate.
  split; [exact Hin|]. split; [exact Hk|]. split; [reflexivity|].
  exact (failing_literal_aborts_creation literalValue ∅ "pet" "pet"
           [idOneArg; badIntArg] badIntArg "invalid syntax" Hin Hk eq_refl).
Defined.

(** X12: [k: a  ...A] in [cycleCtx]. *)
Lemma response_keys_unique_without_fragment_aliases_witness :
  plainFragments cycleCtx
  ∧ forallb plainInside aliasedThenSpread = true
  ∧ CollectFields literalValue cycleCtx aliasedThenSpread ["T"]
    = Returns [ {| Alias := "k"; Name := "a"; Args := None;
                   Selections := [] |};
                collected "a" []; collected "b" [] ]
  ∧ NoDup (Alias <$> [ {| Alias := "k"; Name := "a"; Args := None;
                          Selections := [] |};
                       collected "a" []; collected "b" [] ]).
Proof.
  assert (plainFragments cycleCtx) as Hdoc.
  { intros fragment Hin. simpl in Hin.
    apply elem_of_cons in Hin as [->|Hin]; [reflexivity|].
    apply list_elem_of_singleton in Hin as ->. reflexivity. }
  assert (CollectFields literalValue cycleCtx aliasedThenSpread ["T"]
          = Returns [ {| Alias := "k"; Name := "a"; Args := None;
                         Selections := [] |};
                      collected "a" []; collected "b" [] ]) as Hrun
    by (vm_compute; reflexivity).
  split; [exact Hdoc|]. split; [reflexivity|]. split; [exact Hrun|].
  exact (response_keys_unique_without_fragment_aliases literalValue cycleCtx
           ["T"] aliasedThenSpread _ Hdoc eq_refl Hrun).
Defined.

(** X13: [b a b] comes out as [b a]. *)
Lemma field_only_result_order_witness :
  Forall isField [leaf "b"; leaf "a"; leaf "b"]
  ∧ collectFields literalValue 0 emptyCtx [leaf "b"; leaf "a"; leaf "b"] [] ∅
    = Returns ([collected "b" []; collected "a" []], ∅)
  ∧ Alias <$> [collected "b" []; collected "a" []]
    = firstKeys (includedAliases literalValue (Variables emptyCtx)
                   [leaf "b"; leaf "a"; leaf "b"]).
Proof.
  assert (Forall isField [leaf "b"; leaf "a"; leaf "b"]) as Hall
    by (repeat constructor).
  assert (collectFields literalValue 0 emptyCtx
            [leaf "b"; leaf "a"; leaf "b"] [] ∅
          = Returns ([collected "b" []; collected "a" []], ∅)) as Hrun
    by (vm_compute; reflexivity).
  split; [exact Hall|]. split; [exact Hrun|].
  exact (proj1 (field_only_result_order literalValue 0 emptyCtx
                  [leaf "b"; leaf "a"; leaf "b"] [] ∅ _ _ Hall Hrun)).
Defined.

(** X14: [pet { name }] and then [pet { age }]. *)
Lemma longer_selection_set_only_extends_witness :
  collectFields literalValue 0 emptyCtx [petName] [] ∅
    = Returns ([collected "pet" [leaf "name"]], ∅)
  ∧ collectFields literalValue 0 emptyCtx ([petName] ++ [petAge]) [] ∅
    = Returns ([collected "pet" [leaf "name"; leaf "age"]], ∅)
  ∧ grewFrom [collected "pet" [leaf "name"]]
      [collected "pet" [leaf "name"; leaf "age"]].
Proof.
  assert (collectFields literalValue 0 emptyCtx [petName] [] ∅
          = Returns ([collected "pet" [leaf "name"]], ∅)) as H1
    by (vm_compute; reflexivity).
  assert (collectFields literalValue 0 emptyCtx ([petName] ++ [petAge]) [] ∅
          = Returns ([collected "pet" [leaf "name"; leaf "age"]], ∅)) as H2
    by (vm_compute; reflexivity).
  split; [exact H1|]. split; [exact H2|].
  exact (longer_selection_set_only_extends literalValue 0 emptyCtx []
           [petName] [petAge] ∅ _ _ _ _ H1 H2).
Defined.

(** X15: [Dog, Cat] and [Cat, Dog, Cat]. *)
Lemma satisfies_is_a_set_witness :
  (∀ t : string, t ∈ ["Dog"; "Cat"] ↔ t ∈ ["Cat"; "Dog"; "Cat"])
  ∧ CollectFields literalValue emptyCtx
      [InlineFragment "Dog" [] [leaf "bark"]] ["Dog"; "Cat"]
    = CollectFields literalValue emptyCtx
        [InlineFragment "Dog" [] [leaf "bark"]] ["Cat"; "Dog"; "Cat"].
Proof.
  assert (∀ t : string, t ∈ ["Dog"; "Cat"] ↔ t ∈ ["Cat"; "Dog"; "Cat"])
    as Hsame by (intros t; rewrite !elem_of_cons; tauto).
  split; [exact Hsame|].
  exact (satisfies_is_a_set literalValue emptyCtx ["Dog"; "Cat"]
           ["Cat"; "Dog"; "Cat"] [InlineFragment "Dog" [] [leaf "bark"]]
           Hsame).
Defined.

(** X16: [...Inner] in [spreadCtx]. *)
Lemma spread_acts_as_inline_fragment_witness :
  FragmentDefinitionList_ForName (Fragments (Doc spreadCtx)) "Inner"
    = Some fragInner
  ∧ ("Inner" ∉ (∅ : gset string))
  ∧ shouldIncludeNode literalValue [] (Variables spreadCtx) = Returns true
  ∧ (pending spreadCtx ({["Inner"]} ∪ ∅) ≤ 3)%nat
  ∧ collectSel literalValue spreadCtx ["T"]
      (expansion literalValue spreadCtx ["T"] 4)
      (FragmentSpread "Inner" []) ([], ∅)
    = collectSel literalValue spreadCtx ["T"]
        (expansion literalValue spreadCtx ["T"] 4)
        (InlineFragment (frag_TypeCondition fragInner) []
           (frag_SelectionSet fragInner))
        ([], {["Inner"]} ∪ ∅).
Proof.
  assert ("Inner" ∉ (∅ : gset string)) as Hfresh by apply not_elem_of_empty.
  assert (pending spreadCtx ({["Inner"]} ∪ ∅) ≤ 3)%nat as Hfuel.
  { etrans; [apply (pending_mono spreadCtx ∅); apply empty_subseteq|].
    apply (pending_initial spreadCtx). }
  split; [reflexivity|]. split; [exact Hfresh|]. split; [reflexivity|].
  split; [exact Hfuel|].
  exact (spread_acts_as_inline_fragment literalValue spreadCtx ["T"] 3
           "Inner" [] fragInner [] ∅ eq_refl Hfresh eq_refl Hfuel).
Defined.

(** X17: [pet { name }  other  pet { age }]. *)
Lemma field_only_selections_concatenate_witness :
  Forall isField [petName; leaf "other"; petAge]
  ∧ CollectFields literalValue emptyCtx [petName; leaf "other"; petAge] []
    = Returns [collected "pet" [leaf "name"; leaf "age"];
               collected "other" []]
  ∧ collected "pet" [leaf "name"; leaf "age"]
    ∈ [collected "pet" [leaf "name"; leaf "age"]; collected "other" []]
  ∧ Selections (collected "pet" [leaf "name"; leaf "age"])
    = includedSelections literalValue (Variables emptyCtx) "pet"
        [petName; leaf "other"; petAge].
Proof.
  assert (Forall isField [petName; leaf "other"; petAge]) as Hall
    by (repeat constructor).
  assert (CollectFields literalValue emptyCtx
            [petName; leaf "other"; petAge] []
          = Returns [collected "pet" [leaf "name"; leaf "age"];
                     collected "other" []]) as Hrun
    by (vm_compute; reflexivity).
  assert (collected "pet" [leaf "name"; leaf "age"]
          ∈ [collected "pet" [leaf "name"; leaf "age"];
             collected "other" []]) as Hin by apply list_elem_of_here.
  split; [exact Hall|]. split; [exact Hrun|]. split; [exact Hin|].
  exact (proj2 (field_only_selections_concatenate literalValue emptyCtx
                  [petName; leaf "other"; petAge] [] _ _ Hall Hrun Hin)).
Defined.
